(** * Abstract image generator: the deterministic synthesis pipeline

    A shallow embedding of the JavaScript sources

      - [src/core/contentAnalyzer.js]     (class [ContentAnalyzer])
      - [src/core/seedGenerator.js]       (class [SeedGenerator])
      - [src/core/visualGeneratorNode.js] (classes [VisualGeneratorNode],
                                           [SeededRandom], [PerlinNoise])
      - [src/core/visualGenerator.js]     (class [VisualGenerator], p5.js)
      - [src/cli/imageGenerator.js]       (class [ImageGenerator])

    Conventions.  A JavaScript number that the code only ever uses as an
    integer is a [Z]; a number that takes fractional values is an exact
    rational [Q] (IEEE rounding is not modelled).  A JavaScript string is
    the list of its UTF-16 code units.  Mutable objects (the generator
    state, the permutation array) are threaded explicitly. *)

From Stdlib Require Import ZArith QArith Qround Lia Lqa List String Ascii.
From stdpp Require Import base list.
Import ListNotations.
Local Open Scope Z_scope.

(** ** JavaScript primitives used by the sources *)
Module JS.

(** A string is the sequence of its UTF-16 code units. *)
Definition str := list Z.

Definition charCode (a : ascii) : Z := Z.of_N (N_of_ascii a).

Fixpoint lit (s : string) : str :=
  match s with
  | EmptyString => []
  | String a r => charCode a :: lit r
  end.

(** [ToInt32]: the representative of [z] modulo 2^32 in [-2^31, 2^31). *)
Definition toInt32 (z : Z) : Z := (z + 2147483648) mod 4294967296 - 2147483648.

(** [a << n] *)
Definition shl (a n : Z) : Z :=
  toInt32 (Z.shiftl (toInt32 a) (Z.land n 31)).

(** [a & b] *)
Definition band (a b : Z) : Z := Z.land (toInt32 a) (toInt32 b).

(** [a % b] on integral numbers: the sign follows the dividend. *)
Definition imod (a b : Z) : Z := Z.rem a b.

(** [Math.trunc], [Math.round], and [x % m] on fractional numbers. *)
Definition trunc (x : Q) : Z :=
  if Qle_bool 0 x then Qfloor x else Qceiling x.

Definition round (x : Q) : Z := Qfloor (x + (1 # 2))%Q.

Definition fmod (x m : Q) : Q := (x - m * inject_Z (trunc (x / m)))%Q.

(** [a < b] *)
Definition ltb (a b : Q) : bool := negb (Qle_bool b a).

(** [Math.min(a, b)] *)
Definition min (a b : Q) : Q := if Qle_bool a b then a else b.

(** [v || d] for an optional number: [undefined] and [0] are falsy. *)
Definition orElse (v : option Q) (d : Q) : Q :=
  match v with
  | Some q => if Qeq_bool q 0 then d else q
  | None => d
  end.

(** [Math.max(a, b)] *)
Definition max (a b : Q) : Q := if Qle_bool a b then b else a.

(** The conversion made when a number is stored in a [Uint8ClampedArray]:
    clamp to [[0, 255]], then round to the nearest integer, ties to even. *)
Definition toUint8Clamp (x : Q) : Z :=
  if Qle_bool x 0 then 0
  else if Qle_bool 255 x then 255
  else
    let f := Qfloor x in
    if ltb (inject_Z f + (1 # 2)) x then f + 1
    else if ltb x (inject_Z f + (1 # 2)) then f
    else if Z.even f then f else f + 1.

(** [arr[k]]: [None] stands for [undefined] (index missing, negative
    or itself undefined). *)
Definition at_ {A} (arr : list A) (k : option Z) : option A :=
  match k with
  | Some k => if k <? 0 then None else arr !! Z.to_nat k
  | None => None
  end.

End JS.

(** ** [class SeededRandom] (visualGeneratorNode.js) *)
Module SeededRandom.

Record t := { seed : Z; current : Z }.

(** [constructor(seed)] *)
Definition new (s : Z) : t := {| seed := s; current := s |}.

(** [random()]: the returned number and the updated object.  The product
    and the sum are below 2^53 whenever the state is below 2^32, where the
    arithmetic of the source is therefore exact; the properties of the
    generator are stated for such states. *)
Definition random (r : t) : Q * t :=
  let c := JS.imod (current r * 1664525 + 1013904223) 4294967296 in
  (c # 4294967296, {| seed := seed r; current := c |}).

(** The object after [n] calls of [random()]. *)
Fixpoint after (n : nat) (r : t) : t :=
  match n with
  | O => r
  | S k => after k (snd (random r))
  end.

(** The value returned by call number [n] (counted from 0). *)
Definition draw (n : nat) (r : t) : Q := fst (random (after n r)).

End SeededRandom.

(** ** Regular expressions, as far as the sources use them

    Every pattern in the sources is built from single-code-unit classes,
    greedy repetition of a class, concatenation and ordered alternation.
    Matching is by backtracking in the priority order of ECMAScript. *)
Module Regex.
Import JS.

Inductive t :=
| Eps
| Class (p : Z -> bool)
| Star (p : Z -> bool)
| Seq (a b : t)
| Alt (a b : t).

Definition chr (a : ascii) : t := Class (Z.eqb (charCode a)).
Definition Plus (p : Z -> bool) : t := Seq (Class p) (Star p).

(** A literal word such as [&nbsp;]. *)
Fixpoint word (s : string) : t :=
  match s with
  | EmptyString => Eps
  | String a r => Seq (chr a) (word r)
  end.

(** Greedy [p*] followed by the continuation [k]; gives back one code
    unit at a time when [k] fails. *)
Fixpoint star (p : Z -> bool) (s : str) (k : str -> option str) : option str :=
  match s with
  | c :: s' =>
      if p c then
        match star p s' k with
        | Some r => Some r
        | None => k s
        end
      else k s
  | [] => k s
  end.

(** [run r s k]: match [r] at the head of [s], then [k] on what is
    left; the result is the input left after the whole match. *)
Fixpoint run (r : t) (s : str) (k : str -> option str) : option str :=
  match r with
  | Eps => k s
  | Class p =>
      match s with
      | c :: s' => if p c then k s' else None
      | [] => None
      end
  | Star p => star p s k
  | Seq a b => run a s (fun s' => run b s' k)
  | Alt a b =>
      match run a s k with
      | Some x => Some x
      | None => run b s k
      end
  end.

(** Length of the match of [r] anchored at the head of [s]. *)
Definition matchAt (r : t) (s : str) : option nat :=
  match run r s Some with
  | Some rest => Some (length s - length rest)%nat
  | None => None
  end.

(** [s.replace(/r/g, rep)].  [skip] counts the code units of the
    current match still to be passed over. *)
Fixpoint replaceFrom (r : t) (rep : str) (skip : nat) (s : str) : str :=
  match s with
  | [] =>
      match skip, matchAt r [] with
      | O, Some _ => rep
      | _, _ => []
      end
  | c :: rest =>
      match skip with
      | S n => replaceFrom r rep n rest
      | O =>
          match matchAt r s with
          | Some (S n) => rep ++ replaceFrom r rep n rest
          | Some O => rep ++ c :: replaceFrom r rep O rest
          | None => c :: replaceFrom r rep O rest
          end
      end
  end.

Definition replaceAll (r : t) (rep : str) (s : str) : str :=
  replaceFrom r rep O s.

(** [s.match(/r/g)]: the matches in order, [None] for [null]. *)
Fixpoint matchesFrom (r : t) (skip : nat) (s : str) : list str :=
  match s with
  | [] =>
      match skip, matchAt r [] with
      | O, Some _ => [[]]
      | _, _ => []
      end
  | c :: rest =>
      match skip with
      | S n => matchesFrom r n rest
      | O =>
          match matchAt r s with
          | Some (S n) => firstn (S n) s :: matchesFrom r n rest
          | Some O => [] :: matchesFrom r O rest
          | None => matchesFrom r O rest
          end
      end
  end.

Definition matchAll (r : t) (s : str) : option (list str) :=
  match matchesFrom r O s with
  | [] => None
  | l => Some l
  end.

(** [s.split(/r/)].  [seg] is the piece being collected since the end
    of the previous separator. *)
Fixpoint splitFrom (r : t) (skip : nat) (seg : str) (s : str) : list str :=
  match s with
  | [] => [seg]
  | c :: rest =>
      match skip with
      | S n => splitFrom r n seg rest
      | O =>
          match matchAt r s with
          | Some (S n) => seg :: splitFrom r n [] rest
          | Some O =>
              match seg with
              | [] => splitFrom r O [c] rest
              | _ => seg :: splitFrom r O [c] rest
              end
          | None => splitFrom r O (seg ++ [c]) rest
          end
      end
  end.

Definition split (r : t) (s : str) : list str :=
  match s, matchAt r [] with
  | [], Some _ => []
  | _, _ => splitFrom r O [] s
  end.

End Regex.

(** ** Character classes and string methods *)
Module Str.
Import JS.

Definition inRange (lo hi c : Z) : bool := (lo <=? c) && (c <=? hi).

(** [\s], also the set removed by [trim()]: WhiteSpace and
    LineTerminator of ECMAScript. *)
Definition isSpace (c : Z) : bool :=
  inRange 9 13 c || (c =? 32) || (c =? 160) || (c =? 5760)
  || inRange 8192 8202 c || (c =? 8232) || (c =? 8233) || (c =? 8239)
  || (c =? 8287) || (c =? 12288) || (c =? 65279).

(** [\w] is [A-Za-z0-9_]. *)
Definition isWord (c : Z) : bool :=
  inRange 65 90 c || inRange 97 122 c || inRange 48 57 c || (c =? 95).

(** [toLowerCase()].  The basic Latin capitals are shifted; U+0130 and
    U+212A are the only other code units whose lower case contains a
    basic Latin letter.  Every other code unit is mapped by the Unicode
    tables to code units outside [\w], which is all that [getWords]
    observes of them; they are left in place here. *)
Definition lowerUnit (c : Z) : str :=
  if inRange 65 90 c then [c + 32]
  else if c =? 304 then [105; 775]
  else if c =? 8490 then [107]
  else [c].

Definition toLowerCase (s : str) : str := flat_map lowerUnit s.

Fixpoint trimStart (s : str) : str :=
  match s with
  | c :: r => if isSpace c then trimStart r else s
  | [] => []
  end.

Definition trim (s : str) : str := rev (trimStart (rev (trimStart s))).

End Str.

(** ** [class ContentAnalyzer] (core/contentAnalyzer.js) *)
Module ContentAnalyzer.
Import JS Regex Str.

Record t := { rawContent : str; cleanContent : str }.

Definition notGt (c : Z) : bool := negb (c =? charCode ">").

(** [/<[^>]*>/] *)
Definition reTag : Regex.t := Seq (chr "<") (Seq (Star notGt) (chr ">")).

(** [/<p[^>]*>/i] *)
Definition rePTag : Regex.t :=
  Seq (chr "<")
    (Seq (Class (fun c => (c =? charCode "p") || (c =? charCode "P")))
      (Seq (Star notGt) (chr ">"))).

(** [/\n\s*\n|\r\n\s*\r\n/] *)
Definition reBlankLine : Regex.t :=
  let nl := Class (Z.eqb 10) in
  let cr := Class (Z.eqb 13) in
  Alt (Seq nl (Seq (Star isSpace) nl))
      (Seq cr (Seq nl (Seq (Star isSpace) (Seq cr nl)))).

(** [/[^\w]/] *)
Definition reNonWord : Regex.t := Class (fun c => negb (isWord c)).

(** [cleanText(text)] *)
Definition cleanText (text : str) : str :=
  (* Remove HTML tags *)
  let cleaned := replaceAll reTag (lit " ") text in
  (* Decode common HTML entities *)
  let cleaned := replaceAll (word "&nbsp;") (lit " ") cleaned in
  let cleaned := replaceAll (word "&amp;") (lit "&") cleaned in
  let cleaned := replaceAll (word "&lt;") (lit "<") cleaned in
  let cleaned := replaceAll (word "&gt;") (lit ">") cleaned in
  let cleaned := replaceAll (word "&quot;") [34] cleaned in
  let cleaned := replaceAll (word "&#39;") (lit "'") cleaned in
  (* Normalize whitespace *)
  trim (replaceAll (Plus isSpace) (lit " ") cleaned).

(** [constructor(content)] *)
Definition new (content : str) : t :=
  {| rawContent := content; cleanContent := cleanText content |}.

(** [getWords()] *)
Definition getWords (a : t) : list str :=
  let words := split (Plus isSpace) (toLowerCase (cleanContent a)) in
  let words := filter (fun word => (0 <? length word)%nat) words in
  let words := map (replaceAll reNonWord []) words in
  filter (fun word => (0 <? length word)%nat) words.

(** [getParagraphCount()] *)
Definition getParagraphCount (a : t) : Z :=
  let htmlParagraphs := matchAll rePTag (rawContent a) in
  match htmlParagraphs with
  | Some ((_ :: _) as l) => Z.of_nat (length l)
  | _ =>
      let paragraphs :=
        filter (fun para => (0 <? length (trim para))%nat)
          (split reBlankLine (rawContent a)) in
      Z.max (Z.of_nat (length paragraphs)) 1
  end.

(** [getHash()] *)
Definition getHash (a : t) : Z :=
  let str := cleanContent a in
  Z.abs (fold_left (fun hash char =>
                      let hash := (shl hash 5 - hash) + char in
                      band hash hash) str 0).

(** The object returned by [analyze()]. *)
Record metrics := {
  characters : Z;
  wordCount : Z;
  avgWordLength : Q;
  readingTime : Z;
  paragraphCount : Z;
  words : list str;
  metricsCleanContent : str
}.

(** [analyze()] *)
Definition analyze (a : t) : metrics :=
  let words := getWords a in
  let characters := Z.of_nat (length (cleanContent a)) in
  let wordCount := Z.of_nat (length words) in
  let total := fold_left (fun sum word => sum + Z.of_nat (length word)) words 0 in
  let avgWordLength :=
    if 0 <? wordCount
    then (inject_Z total / inject_Z wordCount)%Q
    else 0%Q in
  let readingTime := Qceiling (inject_Z wordCount / 200) in
  let paragraphCount := getParagraphCount a in
  {| characters := characters;
     wordCount := wordCount;
     avgWordLength := (inject_Z (round (avgWordLength * 10)) / 10)%Q;
     readingTime := readingTime;
     paragraphCount := paragraphCount;
     words := words;
     metricsCleanContent := cleanContent a |}.

End ContentAnalyzer.

(** ** [class SeedGenerator] (core/seedGenerator.js) *)
Module SeedGenerator.
Import JS.

(** The object returned by [generateVisualParams()].  The two stroke
    fields are absent from it; the callers ([App.generateImages],
    [ImageGenerator.generateForItem]) add them afterwards. *)
Record visualParams := {
  seed : Z;
  density : Q;
  complexity : Q;
  smoothness : Q;
  layers : Q;
  shapeVertices : Z;
  paletteIndex : Z;
  minStroke : option Q;
  maxStroke : option Q
}.

(** [generateSeed()] *)
Definition generateSeed (metrics : ContentAnalyzer.metrics) : Z :=
  let seed := (inject_Z (ContentAnalyzer.wordCount metrics * 137)
               + inject_Z (ContentAnalyzer.characters metrics * 31)
               + ContentAnalyzer.avgWordLength metrics * 17)%Q in
  Z.abs (Qfloor seed).

(** [hashContent(str)] *)
Definition hashContent (str : str) : Z :=
  Z.abs (fold_left (fun hash char =>
                      let hash := (shl hash 5 - hash) + char in
                      band hash hash) str 0).

(** [generateVisualParams()] *)
Definition generateVisualParams (metrics : ContentAnalyzer.metrics) : visualParams :=
  let density := JS.min (inject_Z (ContentAnalyzer.wordCount metrics) / 1000) 1 in
  let complexity := JS.min (inject_Z (ContentAnalyzer.characters metrics) / 5000) 1 in
  let smoothness := JS.min (ContentAnalyzer.avgWordLength metrics / 10) 1 in
  let layers := JS.min (inject_Z (ContentAnalyzer.readingTime metrics)) 10 in
  let shapeVertices := Z.min (Z.max (ContentAnalyzer.paragraphCount metrics) 3) 20 in
  let contentHash := hashContent (ContentAnalyzer.metricsCleanContent metrics) in
  let paletteIndex := imod contentHash 10 in
  {| seed := generateSeed metrics;
     density := density;
     complexity := complexity;
     smoothness := smoothness;
     layers := layers;
     shapeVertices := shapeVertices;
     paletteIndex := paletteIndex;
     minStroke := None;
     maxStroke := None |}.

(** [visualParams.minStroke = a; visualParams.maxStroke = b] *)
Definition withStroke (p : visualParams) (a b : option Q) : visualParams :=
  {| seed := seed p; density := density p; complexity := complexity p;
     smoothness := smoothness p; layers := layers p;
     shapeVertices := shapeVertices p; paletteIndex := paletteIndex p;
     minStroke := a; maxStroke := b |}.

End SeedGenerator.

(** ** [class PerlinNoise] (visualGeneratorNode.js) *)
Module PerlinNoise.
Import JS.

Record t := { seed : Z; permutation : list Z }.

(** [[p[i], p[j]] = [p[j], p[i]]] on indices inside the array; an index
    outside it is reported as a fault ([None]). *)
Definition swap (p : list Z) (i j : Z) : option (list Z) :=
  match at_ p (Some j), at_ p (Some i) with
  | Some pj, Some pi => Some (<[Z.to_nat j := pi]> (<[Z.to_nat i := pj]> p))
  | _, _ => None
  end.

(** The Fisher-Yates loop [for (let i = 255; i > 0; i--)], entered
    with [i = Z.of_nat n]. *)
Fixpoint shuffle (n : nat) (rng : SeededRandom.t) (p : list Z) : option (list Z) :=
  match n with
  | O => Some p
  | S n' =>
      let i := Z.of_nat n in
      let (r, rng') := SeededRandom.random rng in
      let j := Qfloor (r * inject_Z (i + 1)) in
      match swap p i j with
      | Some p' => shuffle n' rng' p'
      | None => None
      end
  end.

(** [generatePermutation(seed)] *)
Definition generatePermutation (seed : Z) : option (list Z) :=
  let p := map Z.of_nat (seq 0 256) in
  match shuffle 255 (SeededRandom.new seed) p with
  | Some p => Some (p ++ p)
  | None => None
  end.

(** [constructor(seed)] *)
Definition new (seed : Z) : option t :=
  match generatePermutation seed with
  | Some p => Some {| seed := seed; permutation := p |}
  | None => None
  end.

Definition fade (t : Q) : Q := (t * t * t * (t * (t * 6 - 15) + 10))%Q.

Definition lerp (a b t : Q) : Q := (a + t * (b - a))%Q.

(** [grad(hash, x, y)]; [undefined & 3] is [0]. *)
Definition grad (hash : option Z) (x y : Q) : Q :=
  let h := band (default 0 hash) 3 in
  let u := if h <? 2 then x else y in
  let v := if h <? 2 then y else x in
  ((if band h 1 =? 0 then u else - u) + (if band h 2 =? 0 then v else - v))%Q.

(** [undefined + k] is [NaN], which indexes nothing. *)
Definition plus (a : option Z) (k : Z) : option Z :=
  match a with
  | Some a => Some (a + k)
  | None => None
  end.

(** [get(x, y)] *)
Definition get (n : t) (x y : Q) : Q :=
  let X := band (Qfloor x) 255 in
  let Y := band (Qfloor y) 255 in
  let x := (x - inject_Z (Qfloor x))%Q in
  let y := (y - inject_Z (Qfloor y))%Q in
  let u := fade x in
  let v := fade y in
  let perm := permutation n in
  let aa := at_ perm (plus (at_ perm (Some X)) Y) in
  let ab := at_ perm (plus (at_ perm (Some X)) (Y + 1)) in
  let ba := at_ perm (plus (at_ perm (Some (X + 1))) Y) in
  let bb := at_ perm (plus (at_ perm (Some (X + 1))) (Y + 1)) in
  let res := lerp (lerp (grad aa x y) (grad ba (x - 1) y) u)
                  (lerp (grad ab x (y - 1)) (grad bb (x - 1) (y - 1)) u)
                  v in
  ((res + 1) / 2)%Q.

End PerlinNoise.

(** ** [class VisualGeneratorNode] (visualGeneratorNode.js) *)
Module VisualGeneratorNode.
Import JS.
Import SeedGenerator.

Record palette := { bg : list string; accents : list string }.

(** [initColorPalettes()] *)
Definition initColorPalettes : list palette :=
  [ (* Sunset warmth *)
    {| bg := ["#FF6B6B"; "#FFE66D"]; accents := ["#4ECDC4"; "#FF6B9D"; "#C44569"] |};
    (* Ocean depths *)
    {| bg := ["#667eea"; "#764ba2"]; accents := ["#f093fb"; "#4facfe"; "#43e97b"] |};
    (* Forest serenity *)
    {| bg := ["#134E5E"; "#71B280"]; accents := ["#A8E6CF"; "#DCEDC1"; "#FFD3B6"] |};
    (* Purple dream *)
    {| bg := ["#A770EF"; "#CF8BF3"]; accents := ["#FDB99B"; "#E8D5B7"; "#B8E1DD"] |};
    (* Cosmic night *)
    {| bg := ["#0F2027"; "#203A43"; "#2C5364"]; accents := ["#F857A6"; "#FF5858"; "#FFC371"] |};
    (* Peachy keen *)
    {| bg := ["#FFA07A"; "#FF6B9D"]; accents := ["#C44569"; "#8B4367"; "#1F4068"] |};
    (* Mint fresh *)
    {| bg := ["#56CCF2"; "#2F80ED"]; accents := ["#6FCF97"; "#F2C94C"; "#EB5757"] |};
    (* Lavender fields *)
    {| bg := ["#D4A5A5"; "#9A86A4"]; accents := ["#6C9A8B"; "#E9B384"; "#F4F2DE"] |};
    (* Coral reef *)
    {| bg := ["#FF9A8B"; "#FF6A88"]; accents := ["#FF99AC"; "#FFEAA7"; "#74B9FF"] |};
    (* Northern lights *)
    {| bg := ["#00B4DB"; "#0083B0"]; accents := ["#74EBD5"; "#ACB6E5"; "#86A8E7"] |}
  ]%string.

Record t := {
  params : visualParams;
  width : Z;
  height : Z;
  colorPalettes : list palette;
  rng : SeededRandom.t;
  noise : PerlinNoise.t
}.

(** [constructor(params, width, height)] *)
Definition new (params : visualParams) (width height : Z) : option t :=
  match PerlinNoise.new (seed params) with
  | Some noise =>
      Some {| params := params; width := width; height := height;
              colorPalettes := initColorPalettes;
              rng := SeededRandom.new (seed params);
              noise := noise |}
  | None => None
  end.

(** [this.colorPalettes[this.params.paletteIndex]] in [generate()] *)
Definition paletteAt (g : t) : option palette :=
  at_ (colorPalettes g) (Some (paletteIndex (params g))).

(** The calls that [drawOrganicFlows] makes on the context and on the
    shape methods, in order. *)
Inductive cmd :=
| FillStyle (color : option string)
| StrokeStyle (color : option string)
| LineWidth (w : Q)
| DrawCircle (x y size : Q)
| DrawStar (x y size : Q) (points : Z)
| DrawRectangle (x y size : Q) (offset : Z)
| DrawRegularPolygon (x y size : Q) (points : Z)
| DrawOrganicBlob (x y size : Q) (points : Z) (noiseScale : Q) (offset : Z)
| DrawFlowingCurve (noiseScale : Q) (offset : Z).

(** [accentColors[k % accentColors.length]] *)
Definition colorAt (accentColors : list string) (k : Z) : option string :=
  match accentColors with
  | [] => None
  | _ => accentColors !! Z.to_nat (imod k (Z.of_nat (length accentColors)))
  end.

Definition numLayers (g : t) : Z := Z.max 3 (Qfloor (layers (params g))).
Definition numFlows (g : t) : Z := Qfloor (5 + density (params g) * 10)%Q.
Definition noiseScale (g : t) : Q := ((5 # 1000) / (smoothness (params g) + (1 # 10)))%Q.
Definition shapeVertices_ (g : t) : Z :=
  if shapeVertices (params g) =? 0 then 8 else shapeVertices (params g).

(** [(offset * 37 + this.params.smoothness * 100) % 100] *)
Definition shapeSelector (g : t) (offset : Z) : Q :=
  fmod (inject_Z offset * 37 + smoothness (params g) * 100)%Q 100.

(** The [if / else if] chain that selects the shape. *)
Definition drawShape (g : t) (x y size : Q) (offset : Z) : cmd :=
  let shapeSelector := shapeSelector g offset in
  if ltb shapeSelector 20 then DrawCircle x y size
  else if ltb shapeSelector 35 then DrawStar x y size (shapeVertices_ g)
  else if ltb shapeSelector 50 then DrawRectangle x y size offset
  else if ltb shapeSelector 70 then DrawRegularPolygon x y size (shapeVertices_ g)
  else DrawOrganicBlob x y size (shapeVertices_ g) (noiseScale g) offset.

(** The loop [for (let flow = ...; flow < numFlows; flow++)] with [n]
    iterations left; the generator state is threaded through. *)
Fixpoint flowLoop (g : t) (accentColors : list string) (layer : Z)
    (n : nat) (flow : Z) (rng : SeededRandom.t) : list cmd * SeededRandom.t :=
  match n with
  | O => ([], rng)
  | S n' =>
      let color := colorAt accentColors flow in
      let (r1, rng) := SeededRandom.random rng in
      let x := (r1 * inject_Z (width g))%Q in
      let (r2, rng) := SeededRandom.random rng in
      let y := (r2 * inject_Z (height g))%Q in
      let (r3, rng) := SeededRandom.random rng in
      let size := (50 + r3 * (150 * complexity (params g)))%Q in
      let offset := flow + layer * 100 in
      let (rest, rng) := flowLoop g accentColors layer n' (flow + 1) rng in
      (FillStyle color :: drawShape g x y size offset :: rest, rng)
  end.

(** The loop [for (let i = 0; i < 3; i++)] that strokes the curves. *)
Definition curveLoop (g : t) (accentColors : list string) (layer : Z) : list cmd :=
  flat_map (fun i =>
    let color := colorAt accentColors i in
    let minStroke := orElse (minStroke (params g)) (1 # 2) in
    let maxStroke := orElse (maxStroke (params g)) (3 # 2) in
    [ StrokeStyle color;
      LineWidth (minStroke + complexity (params g) * (maxStroke - minStroke))%Q;
      DrawFlowingCurve (noiseScale g) (i + layer * 10) ])
    [0; 1; 2].

(** The loop over the layers, with [n] iterations left. *)
Fixpoint layerLoop (g : t) (accentColors : list string)
    (n : nat) (layer : Z) (rng : SeededRandom.t) : list cmd * SeededRandom.t :=
  match n with
  | O => ([], rng)
  | S n' =>
      let (flows, rng) :=
        flowLoop g accentColors layer (Z.to_nat (numFlows g)) 0 rng in
      let curves := curveLoop g accentColors layer in
      let (rest, rng) := layerLoop g accentColors n' (layer + 1) rng in
      (flows ++ curves ++ rest, rng)
  end.

(** [drawOrganicFlows(ctx, accentColors)]: the calls made, and the
    generator with its advanced random state. *)
Definition drawOrganicFlows (g : t) (accentColors : list string) : list cmd * t :=
  let (cmds, rng) := layerLoop g accentColors (Z.to_nat (numLayers g)) 0 (rng g) in
  (cmds, {| params := params g; width := width g; height := height g;
            colorPalettes := colorPalettes g; rng := rng; noise := noise g |}).

(** The calls that the shape methods make on the drawing context. *)
Inductive call :=
| Save
| Restore
| Translate (x y : Q)
| Rotate (angle : Q)
| FillRect (x y w h : Q)
| BeginPath
| MoveTo (x y : Q)
| LineTo (x y : Q)
| Stroke.

(** The two colour stops of [drawGradientBackground(ctx, colors)]:
    [colors[0]] and [colors.length > 1 ? colors[1] : colors[0]]. *)
Definition gradientStops (colors : list string) : option string * option string :=
  (colors !! 0%nat,
   if (1 <? length colors)%nat then colors !! 1%nat else colors !! 0%nat).

(** [drawRectangle(ctx, x, y, size, offset)] *)
Definition drawRectangle (x y size : Q) (offset : Z) : list call :=
  let width := (size * ((8 # 10) + inject_Z (imod offset 10) / 20))%Q in
  let height := (size * ((8 # 10) + inject_Z (imod (offset * 3) 10) / 20))%Q in
  [ Save;
    Translate x y;
    Rotate (inject_Z offset * (1 # 10))%Q;
    FillRect (- width / 2)%Q (- height / 2)%Q width height;
    Restore ].

(** [map(value, start1, stop1, start2, stop2)] *)
Definition map (value start1 stop1 start2 stop2 : Q) : Q :=
  (start2 + (stop2 - start2) * ((value - start1) / (stop1 - start1)))%Q.

(** [constrain(value, min, max)] *)
Definition constrain (value min max : Q) : Q := JS.min (JS.max value min) max.

(** The point computed by iteration [i] of [drawFlowingCurve]. *)
Definition curvePoint (g : t) (noiseScale : Q) (offset i : Z) : Q * Q :=
  let steps := 50%Q in
  let t := (inject_Z i / steps)%Q in
  let x := (t * inject_Z (width g))%Q in
  let noiseValue :=
    PerlinNoise.get (noise g) (t * 5 + inject_Z offset)%Q
                    (inject_Z offset * noiseScale)%Q in
  let baseDepth := ((inject_Z (imod offset 5) / 5) * (1 # 2) + (1 # 10))%Q in
  let y := map noiseValue 0 1 0 (inject_Z (height g) * baseDepth)%Q in
  (x, y).

(** [drawFlowingCurve(ctx, noiseScale, offset)] *)
Definition drawFlowingCurve (g : t) (noiseScale : Q) (offset : Z) : list call :=
  BeginPath
  :: List.map (fun i =>
                 let (x, y) := curvePoint g noiseScale offset i in
                 if i =? 0 then MoveTo x y else LineTo x y)
              (List.map Z.of_nat (seq 0 51))
  ++ [Stroke].

(** [pixels[k] = this.constrain(pixels[k] + noiseVal - 5, 0, 255)] on
    the [Uint8ClampedArray] of the image data.  A read outside the array
    is [undefined] and makes the value [NaN]; a write outside it is
    ignored. *)
Definition setChannel (pixels : list Z) (k : Z) (noiseVal : Q) : list Z :=
  match at_ pixels (Some k) with
  | Some v =>
      <[Z.to_nat k := toUint8Clamp (constrain (inject_Z v + noiseVal - 5)%Q 0 255)]> pixels
  | None => pixels
  end.

(** The body of the two loops of [drawNoiseTexture] at [(i, j)]. *)
Definition texturePixel (g : t) (pixels : list Z) (i j : Z) : list Z :=
  let noiseVal :=
    (PerlinNoise.get (noise g) (inject_Z i * (1 # 100)) (inject_Z j * (1 # 100)) * 10)%Q in
  let index := (j * width g + i) * 4 in
  if index <? Z.of_nat (length pixels) then
    let pixels := setChannel pixels index noiseVal in
    let pixels := setChannel pixels (index + 1) noiseVal in
    setChannel pixels (index + 2) noiseVal
  else pixels.

(** The values of [k] in [for (let k = 0; k < n; k += 2)]. *)
Definition stride2 (n : Z) : list Z :=
  List.map (fun k => 2 * Z.of_nat k) (seq 0 (Z.to_nat ((n + 1) / 2))).

(** [drawNoiseTexture(ctx)], from the data read by [getImageData] to the
    data written by [putImageData]. *)
Definition drawNoiseTexture (g : t) (pixels : list Z) : list Z :=
  fold_left (fun pixels i =>
               fold_left (fun pixels j => texturePixel g pixels i j)
                         (stride2 (height g)) pixels)
            (stride2 (width g)) pixels.

End VisualGeneratorNode.

(** ** [class VisualGenerator] (the p5.js renderer of the browser) *)
Module VisualGenerator.
Import JS.
Import SeedGenerator.

Inductive cmd :=
| Stroke (color : option string)
| StrokeWeight (w : Q)
| NoFill
| DrawFlowingCurve (noiseScale : Q) (offset : Z).

Definition noiseScale (params : visualParams) : Q :=
  ((5 # 1000) / (smoothness params + (1 # 10)))%Q.

(** The curve loop of [drawOrganicFlows(p, accentColors)]:
    [p.stroke(color); p.strokeWeight(2 + this.params.complexity * 3);
     p.noFill(); this.drawFlowingCurve(p, noiseScale, i + layer * 10)]. *)
Definition curveLoop (params : visualParams) (accentColors : list string)
    (layer : Z) : list cmd :=
  flat_map (fun i =>
    let color := VisualGeneratorNode.colorAt accentColors i in
    [ Stroke color;
      StrokeWeight (2 + complexity params * 3)%Q;
      NoFill;
      DrawFlowingCurve (noiseScale params) (i + layer * 10) ])
    [0; 1; 2].

End VisualGenerator.

(** ** Canvases

    A canvas is its pixel grid, row by row.  [drawImage] is the canvas
    API call [ctx.drawImage(src, 0, 0, w, h, 0, 0, w, h)]: no scaling,
    the source rectangle is clipped to the source, and on the freshly
    created (fully transparent) destination the compositing stores the
    source pixels as they are. *)
Module Canvas.

Record rgba := { red : Z; green : Z; blue : Z; alpha : Z }.

Definition transparent : rgba := {| red := 0; green := 0; blue := 0; alpha := 0 |}.

Record t := { width : nat; height : nat; pixels : list (list rgba) }.

(** [createCanvas(width, height)] *)
Definition createCanvas (width height : nat) : t :=
  {| width := width; height := height;
     pixels := repeat (repeat transparent width) height |}.

(** The grid has [height] rows of [width] pixels. *)
Definition wf (c : t) : bool :=
  (length (pixels c) =? height c)%nat
  && forallb (fun row => (length row =? width c)%nat) (pixels c).

(** The first [n] cells of [top] laid over [bottom]. *)
Fixpoint overlay {A} (n : nat) (top bottom : list A) : list A :=
  match n, top, bottom with
  | S k, t :: ts, _ :: bs => t :: overlay k ts bs
  | _, _, _ => bottom
  end.

Fixpoint overlayRows {A} (h w : nat) (top bottom : list (list A)) : list (list A) :=
  match h, top, bottom with
  | S k, t :: ts, b :: bs => overlay w t b :: overlayRows k w ts bs
  | _, _, _ => bottom
  end.

Definition drawImage (dst src : t) (w h : nat) : t :=
  {| width := width dst; height := height dst;
     pixels := overlayRows h w (pixels src) (pixels dst) |}.

(** A canvas painted pixel by pixel, for examples. *)
Definition paint (width height : nat) (f : nat -> nat -> rgba) : t :=
  {| width := width; height := height;
     pixels := map (fun y => map (fun x => f x y) (seq 0 width)) (seq 0 height) |}.

End Canvas.

(** ** [class ImageGenerator] (cli/imageGenerator.js) and the crop of
       [class App] (web/app.js) *)
Module ImageGenerator.

Record format := { name : string; fwidth : nat; fheight : nat }.

(** [config.generation] *)
Record config := { cropMode : string; formats : list string }.

(** [formatMap] of [getFormats()] *)
Definition formatMap (n : string) : option format :=
  if String.eqb n "landscape" then
    Some {| name := "landscape"; fwidth := 1200; fheight := 628 |}
  else if String.eqb n "square" then
    Some {| name := "square"; fwidth := 1200; fheight := 1200 |}
  else None.

(** [getFormats()] *)
Definition getFormats (cfg : config) : list (option format) :=
  map formatMap (formats cfg).

(** [masterSize] of [generateFormat] *)
Definition masterSize : nat := 1200.

Section Scaling.
(** [resizeAndCrop(ctx, sourceCanvas, targetWidth, targetHeight)]
    draws scaled images; the scaling filter belongs to the canvas
    backend and is kept abstract. *)
Variable resizeAndCrop : Canvas.t -> Canvas.t -> nat -> nat -> Canvas.t.

(** [applyCropMode(sourceCanvas, targetWidth, targetHeight)] *)
Definition applyCropMode (cfg : config) (sourceCanvas : Canvas.t)
    (targetWidth targetHeight : nat) : Canvas.t :=
  let canvas := Canvas.createCanvas targetWidth targetHeight in
  if String.eqb (cropMode cfg) "resize" then
    (* Resize + Crop mode *)
    resizeAndCrop canvas sourceCanvas targetWidth targetHeight
  else
    (* Direct Crop mode (default) *)
    Canvas.drawImage canvas sourceCanvas targetWidth targetHeight.

(** [App.createCroppedCanvas(sourceCanvas, containerId, width, height,
    formatName, cropMode = 'direct')]: the canvas it builds. *)
Definition createCroppedCanvas (sourceCanvas : Canvas.t)
    (width height : nat) (cropMode : string) : Canvas.t :=
  let croppedCanvas := Canvas.createCanvas width height in
  if String.eqb cropMode "resize" then
    resizeAndCrop croppedCanvas sourceCanvas width height
  else
    Canvas.drawImage croppedCanvas sourceCanvas width height.
End Scaling.

(** The sizes and offsets computed by [resizeAndCrop] (the same
    arithmetic in [ImageGenerator] and in [App]): the size of the
    temporary canvas holding the scaled source, and the corner of the
    rectangle cropped from it. *)
Record geometry := {
  scaleWidth : Q;
  scaleHeight : Q;
  sourceX : Q;
  sourceY : Q
}.

Definition resizeGeometry (sourceWidth sourceHeight targetWidth targetHeight : Q)
    : geometry :=
  let sourceAspect := (sourceWidth / sourceHeight)%Q in
  let targetAspect := (targetWidth / targetHeight)%Q in
  if JS.ltb targetAspect sourceAspect then
    (* Source is wider - fit to height *)
    let scaleHeight := targetHeight in
    let scaleWidth := (sourceWidth * (targetHeight / sourceHeight))%Q in
    {| scaleWidth := scaleWidth; scaleHeight := scaleHeight;
       sourceX := ((scaleWidth - targetWidth) / 2)%Q; sourceY := 0 |}
  else
    (* Source is taller - fit to width *)
    let scaleWidth := targetWidth in
    let scaleHeight := (sourceHeight * (targetWidth / sourceWidth))%Q in
    {| scaleWidth := scaleWidth; scaleHeight := scaleHeight;
       sourceX := 0; sourceY := ((scaleHeight - targetHeight) / 2)%Q |}.

End ImageGenerator.

(** ** The hash in the words of the specification *)
Module Spec.

(** [hash = (hash*31 + charCode) mod 2^32], accumulated left to right. *)
Definition rolling (s : JS.str) : Z :=
  fold_left (fun hash charCode => (hash * 31 + charCode) mod 4294967296) s 0.

(** The five shape kinds and their selector intervals. *)
Inductive shapeKind := Circle | Star | Rectangle | RegularPolygon | Blob.

Definition interval (k : shapeKind) : Q * Q :=
  match k with
  | Circle => (0, 20)
  | Star => (20, 35)
  | Rectangle => (35, 50)
  | RegularPolygon => (50, 70)
  | Blob => (70, 100)
  end%Q.

(** [x mod m] on fractional numbers: the remainder of the floored
    division. *)
Definition qmod (x m : Q) : Q := (x - m * inject_Z (Qfloor (x / m)))%Q.

(** [(offset*37 + smoothness*100) mod 100] *)
Definition selector (offset : Z) (smoothness : Q) : Q :=
  qmod (inject_Z offset * 37 + smoothness * 100)%Q 100.

(** The kind of shape a call of the renderer draws, if any. *)
Definition kindOf (c : VisualGeneratorNode.cmd) : option shapeKind :=
  match c with
  | VisualGeneratorNode.DrawCircle _ _ _ => Some Circle
  | VisualGeneratorNode.DrawStar _ _ _ _ => Some Star
  | VisualGeneratorNode.DrawRectangle _ _ _ _ => Some Rectangle
  | VisualGeneratorNode.DrawRegularPolygon _ _ _ _ => Some RegularPolygon
  | VisualGeneratorNode.DrawOrganicBlob _ _ _ _ _ _ => Some Blob
  | _ => None
  end.

(** [minStrokeWidth + complexity*(maxStrokeWidth - minStrokeWidth)],
    the bounds defaulting to 0.5 and 1.5. *)
Definition strokeWidth (p : SeedGenerator.visualParams) : Q :=
  let lo := JS.orElse (SeedGenerator.minStroke p) (1 # 2) in
  let hi := JS.orElse (SeedGenerator.maxStroke p) (3 # 2) in
  (lo + SeedGenerator.complexity p * (hi - lo))%Q.

(** The widths set by the curve loops, in order. *)
Definition lineWidths (l : list VisualGeneratorNode.cmd) : list Q :=
  omap (fun c => match c with
                 | VisualGeneratorNode.LineWidth w => Some w
                 | _ => None
                 end) l.

Definition strokeWeights (l : list VisualGenerator.cmd) : list Q :=
  omap (fun c => match c with
                 | VisualGenerator.StrokeWeight w => Some w
                 | _ => None
                 end) l.

End Spec.

(** ** Sample inputs *)
Module Sample.

Definition text : JS.str := JS.lit "Hello world. This is a test.".

Definition metrics : ContentAnalyzer.metrics :=
  ContentAnalyzer.analyze (ContentAnalyzer.new text).

(** Parameters with complexity 0.5 and the default stroke bounds given
    explicitly. *)
Definition params : SeedGenerator.visualParams :=
  {| SeedGenerator.seed := 42; SeedGenerator.density := 1 # 2;
     SeedGenerator.complexity := 1 # 2; SeedGenerator.smoothness := 1 # 2;
     SeedGenerator.layers := 3; SeedGenerator.shapeVertices := 3;
     SeedGenerator.paletteIndex := 0;
     SeedGenerator.minStroke := Some (1 # 2);
     SeedGenerator.maxStroke := Some (3 # 2) |}.

Definition generator (p : SeedGenerator.visualParams) : VisualGeneratorNode.t :=
  {| VisualGeneratorNode.params := p;
     VisualGeneratorNode.width := 1200; VisualGeneratorNode.height := 1200;
     VisualGeneratorNode.colorPalettes := VisualGeneratorNode.initColorPalettes;
     VisualGeneratorNode.rng := SeededRandom.new (SeedGenerator.seed p);
     VisualGeneratorNode.noise :=
       {| PerlinNoise.seed := SeedGenerator.seed p; PerlinNoise.permutation := [] |} |}.

Definition accents : list string := ["#4ECDC4"; "#FF6B9D"; "#C44569"]%string.

(** A master canvas of the master size with four colours. *)
Definition master : Canvas.t :=
  Canvas.paint 1200 1200
    (fun x y => {| Canvas.red := match x with O => 255 | _ => 0 end;
                   Canvas.green := match y with O => 255 | _ => 0 end;
                   Canvas.blue := 128; Canvas.alpha := 255 |}).

Definition config : ImageGenerator.config :=
  {| ImageGenerator.cropMode := "direct";
     ImageGenerator.formats := ["landscape"; "square"] |}%string.

End Sample.

(** ** Observations on the traces of the renderer *)
Module Observe.

(** Centre and size of the shape a call draws, if it draws one. *)
Definition placement (c : VisualGeneratorNode.cmd) : option (Q * Q * Q) :=
  match c with
  | VisualGeneratorNode.DrawCircle x y size => Some (x, y, size)
  | VisualGeneratorNode.DrawStar x y size _ => Some (x, y, size)
  | VisualGeneratorNode.DrawRectangle x y size _ => Some (x, y, size)
  | VisualGeneratorNode.DrawRegularPolygon x y size _ => Some (x, y, size)
  | VisualGeneratorNode.DrawOrganicBlob x y size _ _ _ => Some (x, y, size)
  | _ => None
  end.

(** The offsets of the curves stroked, in order. *)
Definition curves (l : list VisualGeneratorNode.cmd) : list Z :=
  omap (fun c => match c with
                 | VisualGeneratorNode.DrawFlowingCurve _ offset => Some offset
                 | _ => None
                 end) l.

(** The colours set for filling and stroking, in order. *)
Definition colours (l : list VisualGeneratorNode.cmd) : list (option string) :=
  omap (fun c => match c with
                 | VisualGeneratorNode.FillStyle color => Some color
                 | VisualGeneratorNode.StrokeStyle color => Some color
                 | _ => None
                 end) l.

(** The points of a path, in order. *)
Definition points (l : list VisualGeneratorNode.call) : list (Q * Q) :=
  omap (fun c => match c with
                 | VisualGeneratorNode.MoveTo x y => Some (x, y)
                 | VisualGeneratorNode.LineTo x y => Some (x, y)
                 | _ => None
                 end) l.

(** A shape centred inside the canvas of [g], of a size between 50 and
    [50 + 150*complexity]. *)
Definition inside (g : VisualGeneratorNode.t) (pl : Q * Q * Q) : Prop :=
  let '(x, y, size) := pl in
  (0 <= x < inject_Z (VisualGeneratorNode.width g))%Q /\
  (0 <= y < inject_Z (VisualGeneratorNode.height g))%Q /\
  (50 <= size <= 50 + 150 * SeedGenerator.complexity (VisualGeneratorNode.params g))%Q.

(** A lower-case word character: [a-z], [0-9] or [_]. *)
Definition lowerWordChar (c : Z) : bool :=
  Str.inRange 97 122 c || Str.inRange 48 57 c || (c =? 95).

(** Every whitespace code unit of [s] is a U+0020 followed by a code unit
    that is not whitespace; with [trailing], it may also be the last code
    unit. *)
Fixpoint spaced (trailing : bool) (s : JS.str) : Prop :=
  match s with
  | [] => True
  | c :: r =>
      (Str.isSpace c = true ->
       c = 32 /\ match r with
                 | d :: _ => Str.isSpace d = false
                 | [] => trailing = true
                 end)
      /\ spaced trailing r
  end.

(** Position [k] of image data holds channel [k mod 4] of the pixel in
    column [(k / 4) mod width] and row [(k / 4) / width]. *)
Definition channel (k : nat) : Z := Z.of_nat k mod 4.
Definition column (g : VisualGeneratorNode.t) (k : nat) : Z :=
  (Z.of_nat k / 4) mod VisualGeneratorNode.width g.
Definition row (g : VisualGeneratorNode.t) (k : nat) : Z :=
  (Z.of_nat k / 4) / VisualGeneratorNode.width g.

(** The byte stored by [setChannel] over the byte [v]. *)
Definition stored (noiseVal : Q) (v : Z) : Z :=
  JS.toUint8Clamp
    (VisualGeneratorNode.constrain (inject_Z v + noiseVal - 5)%Q 0 255).

(** [q] is image data [p0] retouched: the same length, every byte still
    a byte and within 5 of the original, and the original where
    [untouched] holds. *)
Definition retouched (p0 : list Z) (untouched : nat -> Prop) (q : list Z) : Prop :=
  length q = length p0 /\
  forall k v, p0 !! k = Some v ->
    exists v', q !! k = Some v' /\ 0 <= v' <= 255 /\ v - 5 <= v' <= v + 5
               /\ (untouched k -> v' = v).

(** Pixel [(x, y)] of a canvas. *)
Definition pixel (c : Canvas.t) (x y : nat) : option Canvas.rgba :=
  match Canvas.pixels c !! y with
  | Some row => row !! x
  | None => None
  end.

End Observe.

(** * Properties *)

(** ** 32-bit wrap-around *)
Section Int32.
Import JS.

Lemma toInt32_range z : -2147483648 <= toInt32 z < 2147483648.
Proof.
  unfold toInt32.
  pose proof (Z.mod_pos_bound (z + 2147483648) 4294967296). lia.
Qed.

Lemma toInt32_mod z : toInt32 z mod 4294967296 = z mod 4294967296.
Proof.
  unfold toInt32.
  rewrite (Z.mod_eq (z + 2147483648) 4294967296) by lia.
  replace (z + 2147483648 - 4294967296 * ((z + 2147483648) / 4294967296) - 2147483648)
    with (z + (- ((z + 2147483648) / 4294967296)) * 4294967296) by ring.
  apply Z_mod_plus_full.
Qed.

Lemma toInt32_wrap z : exists q, toInt32 z = z + q * 4294967296.
Proof.
  exists (- ((z + 2147483648) / 4294967296)). unfold toInt32.
  rewrite (Z.mod_eq (z + 2147483648) 4294967296) by lia. ring.
Qed.

Lemma toInt32_congr a b :
  (exists q, a = b + q * 4294967296) -> toInt32 a = toInt32 b.
Proof.
  intros [q ->]. unfold toInt32.
  replace (b + q * 4294967296 + 2147483648)
    with (b + 2147483648 + q * 4294967296) by ring.
  now rewrite Z_mod_plus_full.
Qed.

Lemma mod_wrap z : exists q, z mod 4294967296 = z + q * 4294967296.
Proof.
  exists (- (z / 4294967296)). rewrite Z.mod_eq by lia. ring.
Qed.

Lemma toInt32_small z : -2147483648 <= z < 2147483648 -> toInt32 z = z.
Proof. intros H. unfold toInt32. rewrite Z.mod_small; lia. Qed.

Lemma band_diag z : band z z = toInt32 z.
Proof. unfold band. apply Z.land_diag. Qed.

Lemma shl5 z : shl z 5 = toInt32 (toInt32 z * 32).
Proof.
  unfold shl. change (Z.land 5 31) with 5.
  rewrite Z.shiftl_mul_pow2 by lia. reflexivity.
Qed.

(** The loop body of both hash functions is one step of the rolling
    hash, kept in the signed 32-bit range. *)
Lemma hash_step h c :
  band (shl h 5 - h + c) (shl h 5 - h + c) = toInt32 (h * 31 + c).
Proof.
  rewrite band_diag, shl5. apply toInt32_congr.
  destruct (toInt32_wrap h) as [q1 ->].
  destruct (toInt32_wrap ((h + q1 * 4294967296) * 32)) as [q2 ->].
  exists (32 * q1 + q2). ring.
Qed.

Lemma hash_fold s : forall h u,
  h = toInt32 u ->
  fold_left (fun hash char =>
               let hash := (shl hash 5 - hash) + char in band hash hash) s h
  = toInt32 (fold_left (fun hash charCode => (hash * 31 + charCode) mod 4294967296)
               s (u mod 4294967296)).
Proof.
  induction s as [|c s IH]; intros h u Hh; simpl.
  - subst h. apply toInt32_congr.
    destruct (mod_wrap u) as [q ->]. exists (- q). ring.
  - rewrite hash_step.
    rewrite (IH _ ((u mod 4294967296 * 31 + c) mod 4294967296)).
    + now rewrite Z.mod_mod by lia.
    + apply toInt32_congr. subst h.
      destruct (toInt32_wrap u) as [q1 ->].
      destruct (mod_wrap u) as [q2 ->].
      destruct (mod_wrap ((u + q2 * 4294967296) * 31 + c)) as [q3 ->].
      exists (31 * q1 - 31 * q2 - q3). ring.
Qed.

Lemma hashContent_signed s :
  SeedGenerator.hashContent s = Z.abs (toInt32 (Spec.rolling s)).
Proof.
  unfold SeedGenerator.hashContent, Spec.rolling.
  f_equal. exact (hash_fold s 0 0 eq_refl).
Qed.

Lemma hashContent_range s : 0 <= SeedGenerator.hashContent s <= 2147483648.
Proof.
  rewrite hashContent_signed.
  pose proof (toInt32_range (Spec.rolling s)). lia.
Qed.

End Int32.

(** ** The seeded generator *)
Section Generator.
Import SeededRandom.

Lemma random_current r :
  0 <= current r ->
  current (snd (random r)) = (current r * 1664525 + 1013904223) mod 4294967296.
Proof.
  intros H. unfold random, JS.imod. simpl.
  apply Z.rem_mod_nonneg; lia.
Qed.

Lemma random_current_range r :
  0 <= current r -> 0 <= current (snd (random r)) < 4294967296.
Proof.
  intros H. rewrite random_current by assumption.
  apply Z.mod_pos_bound. lia.
Qed.

Lemma after_current_range n : forall r,
  0 <= current r < 4294967296 -> 0 <= current (after n r) < 4294967296.
Proof.
  induction n as [|n IH]; intros r H; simpl; [assumption|].
  apply IH, random_current_range. lia.
Qed.

Lemma random_unit r :
  0 <= current r -> (0 <= fst (random r) < 1)%Q.
Proof.
  intros H. pose proof (random_current_range r H) as Hc.
  unfold random in *. simpl in *.
  unfold Qle, Qlt. simpl. lia.
Qed.

(** [random()] reads nothing but [current]. *)
Lemma draw_state n : forall r1 r2,
  current r1 = current r2 -> draw n r1 = draw n r2.
Proof.
  unfold draw.
  induction n as [|n IH]; intros r1 r2 H; simpl.
  - unfold random. now rewrite H.
  - apply IH. unfold random. simpl. now rewrite H.
Qed.

End Generator.

(** C1, as stated, fails: from state 42 the first step gives
    [42*1664525 + 1013904223 = 1083814273], so the first number returned is
    [1083814273/2^32] and not [1013904223/2^32]. *)
Lemma first_draw_42_is_not_increment :
  ~ (SeededRandom.draw 0 (SeededRandom.new 42) == 1013904223 # 4294967296)%Q.
Proof. vm_compute. discriminate. Qed.

(** C1 (amended): for the generator constructed with seed 42 the first
    call returns exactly [1083814273/2^32]; for every seed in the unsigned
    32-bit range, every call replaces the state by
    [(state*1664525 + 1013904223) mod 2^32] and returns [state/2^32], a
    number in [[0,1)]; the product stays below [2^53]; and the numbers
    returned depend on the state alone. *)
Theorem prng_lcg (seed : Z) (n : nat) (Hseed : 0 <= seed < 4294967296) :
  SeededRandom.draw 0 (SeededRandom.new 42) = 1083814273 # 4294967296 /\
  let r := SeededRandom.after n (SeededRandom.new seed) in
  let r' := snd (SeededRandom.random r) in
  SeededRandom.current r' =
    (SeededRandom.current r * 1664525 + 1013904223) mod 4294967296 /\
  SeededRandom.draw n (SeededRandom.new seed)
    = SeededRandom.current r' # 4294967296 /\
  (0 <= SeededRandom.draw n (SeededRandom.new seed) < 1)%Q /\
  0 <= SeededRandom.current r * 1664525 + 1013904223 < 9007199254740992 /\
  (forall other, SeededRandom.current other = seed ->
     SeededRandom.draw n other = SeededRandom.draw n (SeededRandom.new seed)).
Proof.
  split; [reflexivity|].
  intros r r'.
  assert (Hr : 0 <= SeededRandom.current r < 4294967296)
    by (apply after_current_range; assumption).
  split; [apply random_current, Hr|].
  split; [reflexivity|].
  split; [apply random_unit, Hr|].
  split; [revert Hr; generalize (SeededRandom.current r); intros c Hc; lia|].
  intros other Ho. apply draw_state. assumption.
Qed.

Lemma prng_lcg_witness :
  0 <= 42 < 4294967296 /\
  (0 <= SeededRandom.draw 3 (SeededRandom.new 42) < 1)%Q.
Proof.
  split; [lia|].
  exact (proj1 (proj2 (proj2 (proj2 (prng_lcg 42 3 ltac:(lia)))))).
Defined.

(** ** Metrics and parameters *)

(** C2: the number of layers painted for the parameters mapped from any
    metrics is [max(3, floor(min(readingTime, 10)))], an integer between 3
    and 10. *)
Theorem layer_count_range (g : VisualGeneratorNode.t)
    (metrics : ContentAnalyzer.metrics) (a b : option Q)
    (Hg : VisualGeneratorNode.params g
          = SeedGenerator.withStroke (SeedGenerator.generateVisualParams metrics) a b) :
  VisualGeneratorNode.numLayers g
    = Z.max 3 (Qfloor (JS.min (inject_Z (ContentAnalyzer.readingTime metrics)) 10)) /\
  3 <= VisualGeneratorNode.numLayers g <= 10.
Proof.
  unfold VisualGeneratorNode.numLayers. rewrite Hg. simpl.
  split; [reflexivity|].
  unfold JS.min.
  destruct (Qle_bool (inject_Z (ContentAnalyzer.readingTime metrics)) 10) eqn:E.
  - rewrite Qfloor_Z. apply Qle_bool_iff in E.
    change 10%Q with (inject_Z 10) in E. rewrite <- Zle_Qle in E. lia.
  - change (Qfloor 10) with 10. lia.
Qed.

Lemma layer_count_range_witness :
  let g := Sample.generator
             (SeedGenerator.withStroke
                (SeedGenerator.generateVisualParams Sample.metrics)
                (Some (1 # 2)) (Some (3 # 2))) in
  VisualGeneratorNode.numLayers g = 3 /\ 3 <= VisualGeneratorNode.numLayers g <= 10.
Proof.
  intros g. split; [reflexivity|].
  exact (proj2 (layer_count_range g Sample.metrics (Some (1 # 2)) (Some (3 # 2)) eq_refl)).
Defined.

(** C3, as stated, fails: the loop works on signed 32-bit integers, so for
    the text "abcdef" the code returns [1424385949] while the rolling hash
    reduced to [[0, 2^32)] is [2870581347], already non-negative. *)
Lemma hash_abcdef_is_not_unsigned_rolling :
  SeedGenerator.hashContent (JS.lit "abcdef")
    <> Z.abs (Spec.rolling (JS.lit "abcdef")).
Proof. vm_compute. discriminate. Qed.

(** C3 (amended): for every cleaned text, the content hash is the
    absolute value of the rolling hash [hash = (hash*31 + charCode) mod
    2^32] read as a signed 32-bit integer (two's complement); it lies in
    [[0, 2^31]] and so fits an unsigned 32-bit integer.  Both copies of the
    loop agree. *)
Theorem content_hash_rolling (a : ContentAnalyzer.t) :
  let text := ContentAnalyzer.cleanContent a in
  ContentAnalyzer.getHash a = Z.abs (JS.toInt32 (Spec.rolling text)) /\
  SeedGenerator.hashContent text = Z.abs (JS.toInt32 (Spec.rolling text)) /\
  0 <= SeedGenerator.hashContent text <= 2147483648 /\
  SeedGenerator.hashContent text < 4294967296.
Proof.
  intros text.
  pose proof (hashContent_range text).
  split; [exact (hashContent_signed text)|].
  split; [exact (hashContent_signed text)|].
  split; lia.
Qed.

(** C8: the literal case of the metrics. *)
Theorem hello_world_metrics :
  let a := ContentAnalyzer.new (JS.lit "Hello world. This is a test.") in
  let m := ContentAnalyzer.analyze a in
  ContentAnalyzer.getWords a
    = map JS.lit ["hello"; "world"; "this"; "is"; "a"; "test"]%string /\
  ContentAnalyzer.words m = ContentAnalyzer.getWords a /\
  map (@length Z) (ContentAnalyzer.words m) = [5; 5; 4; 2; 1; 4]%nat /\
  ContentAnalyzer.wordCount m = 6 /\
  ContentAnalyzer.readingTime m = 1 /\
  (ContentAnalyzer.avgWordLength m == 21 # 6)%Q /\
  (ContentAnalyzer.avgWordLength m == 35 # 10)%Q.
Proof. vm_compute. repeat split; reflexivity. Qed.

(** C9: for every input text the palette index is the content hash
    modulo 10 and lies between 0 and 9; the palette table has exactly ten
    entries, so the lookup at any index between 0 and 9, and the one made by
    [generate()], yields a palette. *)
Theorem palette_index_bounded (text : JS.str) (k : Z) (Hk : 0 <= k <= 9) :
  let m := ContentAnalyzer.analyze (ContentAnalyzer.new text) in
  let p := SeedGenerator.generateVisualParams m in
  SeedGenerator.paletteIndex p
    = SeedGenerator.hashContent (ContentAnalyzer.cleanText text) mod 10 /\
  0 <= SeedGenerator.paletteIndex p <= 9 /\
  length VisualGeneratorNode.initColorPalettes = 10%nat /\
  is_Some (JS.at_ VisualGeneratorNode.initColorPalettes (Some k)) /\
  is_Some (JS.at_ VisualGeneratorNode.initColorPalettes
             (Some (SeedGenerator.paletteIndex p))).
Proof.
  intros m p.
  assert (Hat : forall i, 0 <= i <= 9 ->
            is_Some (JS.at_ VisualGeneratorNode.initColorPalettes (Some i))).
  { intros i Hi. unfold JS.at_.
    destruct (Z.ltb_spec i 0) as [?|_]; [lia|].
    apply lookup_lt_is_Some. simpl. lia. }
  assert (Hp : SeedGenerator.paletteIndex p
               = SeedGenerator.hashContent (ContentAnalyzer.cleanText text) mod 10).
  { unfold p, SeedGenerator.generateVisualParams, JS.imod. simpl.
    apply Z.rem_mod_nonneg; [apply hashContent_range | lia]. }
  assert (Hr : 0 <= SeedGenerator.paletteIndex p <= 9).
  { rewrite Hp.
    pose proof (Z.mod_pos_bound
                  (SeedGenerator.hashContent (ContentAnalyzer.cleanText text)) 10).
    lia. }
  split; [exact Hp|]. split; [exact Hr|]. split; [reflexivity|].
  split; [apply Hat, Hk | apply Hat, Hr].
Qed.

Lemma palette_index_bounded_witness :
  0 <= 9 <= 9 /\
  is_Some (JS.at_ VisualGeneratorNode.initColorPalettes (Some 9)).
Proof.
  split; [lia|].
  exact (proj1 (proj2 (proj2 (proj2
    (palette_index_bounded (JS.lit "Hello world") 9 ltac:(lia)))))).
Defined.

(** C10: for every input string, the empty one included, the paragraph
    count is at least 1.  Either the raw text has [<p ...>] tags and the
    count is their number, or it has none and the count is the number of
    non-blank pieces between blank-line separators, floored at 1; for the
    empty string it is 1. *)
Theorem paragraph_count_at_least_one (raw : JS.str) :
  let a := ContentAnalyzer.new raw in
  1 <= ContentAnalyzer.paragraphCount (ContentAnalyzer.analyze a) /\
  ((exists tags, Regex.matchAll ContentAnalyzer.rePTag raw = Some tags /\
      ContentAnalyzer.getParagraphCount a = Z.of_nat (length tags))
   \/
   (Regex.matchAll ContentAnalyzer.rePTag raw = None /\
    ContentAnalyzer.getParagraphCount a
      = Z.max (Z.of_nat (length
                 (filter (fun para => (0 <? length (Str.trim para))%nat)
                    (Regex.split ContentAnalyzer.reBlankLine raw)))) 1)) /\
  ContentAnalyzer.paragraphCount
    (ContentAnalyzer.analyze (ContentAnalyzer.new [])) = 1.
Proof.
  intros a. simpl.
  unfold ContentAnalyzer.getParagraphCount. simpl.
  unfold Regex.matchAll.
  destruct (Regex.matchesFrom ContentAnalyzer.rePTag 0 raw) as [|t l] eqn:E.
  - split; [lia|]. split; [|reflexivity]. right. split; reflexivity.
  - split; [simpl length; lia|]. split; [|reflexivity].
    left. exists (t :: l). split; reflexivity.
Qed.

(** ** The noise field *)
Section Noise.
Import PerlinNoise.
Local Open Scope Q_scope.

Lemma square_nonneg a : 0 <= a * a.
Proof.
  destruct (Qlt_le_dec a 0) as [H|H].
  - assert (E : a * a == (- a) * (- a)) by ring.
    rewrite E. apply Qmult_le_0_compat; lra.
  - apply Qmult_le_0_compat; assumption.
Qed.

(** The fade curve maps the unit interval to itself and keeps each half
    on its side of [1/2]. *)
Lemma fade_unit t : 0 <= t <= 1 -> 0 <= fade t <= 1.
Proof.
  intros [H0 H1]. unfold fade.
  assert (Hq : 0 <= t * (t * 6 - 15) + 10) by nra.
  assert (Hq' : 0 <= (1 - t) * ((1 - t) * 6 - 15) + 10) by nra.
  assert (Ht3 : 0 <= t * t * t) by (apply Qmult_le_0_compat; nra).
  assert (Hs3 : 0 <= (1 - t) * (1 - t) * (1 - t))
    by (apply Qmult_le_0_compat; nra).
  split.
  - apply Qmult_le_0_compat; assumption.
  - assert (Hsym : t * t * t * (t * (t * 6 - 15) + 10)
                   == 1 - (1 - t) * (1 - t) * (1 - t) * ((1 - t) * ((1 - t) * 6 - 15) + 10))
      by ring.
    rewrite Hsym.
    assert (0 <= (1 - t) * (1 - t) * (1 - t) * ((1 - t) * ((1 - t) * 6 - 15) + 10))
      by (apply Qmult_le_0_compat; assumption).
    lra.
Qed.

Lemma fade_half t : 0 <= (2 * t - 1) * (2 * fade t - 1).
Proof.
  unfold fade.
  assert (Hfac : (2 * t - 1) * (2 * (t * t * t * (t * (t * 6 - 15) + 10)) - 1)
                 == (2 * t - 1) * (2 * t - 1)
                    * (6 * (t * (1 - t)) * (t * (1 - t)) + 2 * (t * (1 - t)) + 1))
    by ring.
  rewrite Hfac.
  apply Qmult_le_0_compat; [apply square_nonneg|].
  set (s := t * (1 - t)).
  pose proof (square_nonneg (6 * s + 1)) as Hsq.
  assert (Hexp : (6 * s + 1) * (6 * s + 1) == 36 * (s * s) + 12 * s + 1) by ring.
  rewrite Hexp in Hsq.
  assert (Hgoal : 6 * s * s + 2 * s + 1 == (36 * (s * s) + 12 * s + 1) / 6 + 5 / 6)
    by field.
  rewrite Hgoal.
  assert (0 <= (36 * (s * s) + 12 * s + 1) / 6) by (apply Qle_shift_div_l; lra).
  lra.
Qed.

(** Each gradient is a signed sum of the two offsets. *)
Lemma grad_bound hash a b A B :
  - A <= a <= A -> - B <= b <= B ->
  - (A + B) <= grad hash a b <= A + B.
Proof.
  intros Ha Hb. unfold grad.
  destruct (JS.band (default 0%Z hash) 3 <? 2)%Z;
    destruct (JS.band (JS.band (default 0%Z hash) 3) 1 =? 0)%Z;
    destruct (JS.band (JS.band (default 0%Z hash) 3) 2 =? 0)%Z;
    lra.
Qed.

Lemma lerp_bound p r t P R :
  - P <= p <= P -> - R <= r <= R -> 0 <= t <= 1 ->
  - (P + t * (R - P)) <= lerp p r t <= P + t * (R - P).
Proof.
  intros Hp Hr Ht. unfold lerp.
  assert (0 <= (1 - t) * (P - p)) by (apply Qmult_le_0_compat; lra).
  assert (0 <= (1 - t) * (P + p)) by (apply Qmult_le_0_compat; lra).
  assert (0 <= t * (R - r)) by (apply Qmult_le_0_compat; lra).
  assert (0 <= t * (R + r)) by (apply Qmult_le_0_compat; lra).
  split; nra.
Qed.

Lemma frac_unit x : 0 <= x - inject_Z (Qfloor x) <= 1.
Proof.
  pose proof (Qfloor_le x). pose proof (Qlt_floor x) as Hlt.
  rewrite inject_Z_plus in Hlt. change (inject_Z 1) with 1 in Hlt. lra.
Qed.

(** The interpolated value, before the final remapping, is within
    [[-1, 1]] whatever the four hashes are. *)
Lemma interpolation_bound aa ab ba bb x y :
  0 <= x <= 1 -> 0 <= y <= 1 ->
  -1 <= lerp (lerp (grad aa x y) (grad ba (x - 1) y) (fade x))
             (lerp (grad ab x (y - 1)) (grad bb (x - 1) (y - 1)) (fade x))
             (fade y) <= 1.
Proof.
  intros Hx Hy.
  pose proof (fade_unit x Hx) as Hu. pose proof (fade_unit y Hy) as Hv.
  pose proof (fade_half x) as Hhx. pose proof (fade_half y) as Hhy.
  set (u := fade x) in *. set (v := fade y) in *.
  assert (G00 := grad_bound aa x y x y ltac:(lra) ltac:(lra)).
  assert (G10 := grad_bound ba (x - 1) y (1 - x) y ltac:(lra) ltac:(lra)).
  assert (G01 := grad_bound ab x (y - 1) x (1 - y) ltac:(lra) ltac:(lra)).
  assert (G11 := grad_bound bb (x - 1) (y - 1) (1 - x) (1 - y) ltac:(lra) ltac:(lra)).
  assert (L1 := lerp_bound _ _ u _ _ G00 G10 Hu).
  assert (L2 := lerp_bound _ _ u _ _ G01 G11 Hu).
  assert (L := lerp_bound _ _ v _ _ L1 L2 Hv).
  set (res := lerp _ _ v) in *.
  assert (Hsum : x + y + u * (1 - x + y - (x + y))
                 + v * (x + (1 - y) + u * (1 - x + (1 - y) - (x + (1 - y)))
                        - (x + y + u * (1 - x + y - (x + y))))
                 == 1 - ((2 * x - 1) * (2 * u - 1) + (2 * y - 1) * (2 * v - 1)) / 2)
    by field.
  rewrite Hsum in L. 
  assert (0 <= ((2 * x - 1) * (2 * u - 1) + (2 * y - 1) * (2 * v - 1)) / 2).
  { apply Qle_shift_div_l; lra. }
  lra.
Qed.

Lemma get_unit n x y : 0 <= get n x y <= 1.
Proof.
  unfold get. cbv zeta.
  match goal with
  | |- 0 <= (lerp (lerp (grad ?aa _ _) (grad ?ba _ _) _)
                  (lerp (grad ?ab _ _) (grad ?bb _ _) _) _ + 1) / 2 <= 1 =>
      pose proof (interpolation_bound aa ab ba bb _ _
                    (frac_unit x) (frac_unit y)) as H
  end.
  set (res := lerp _ _ _) in *.
  split.
  - apply Qle_shift_div_l; lra.
  - apply Qle_shift_div_r; lra.
Qed.

(** *** The permutation table is built without fault *)

Lemma floor_scale r k :
  0 <= r < 1 -> (0 < k)%Z -> (0 <= Qfloor (r * inject_Z k) < k)%Z.
Proof.
  intros [Hr0 Hr1] Hk.
  assert (Hk' : 0 < inject_Z k) by (change 0 with (inject_Z 0); now rewrite <- Zlt_Qlt).
  split.
  - change 0%Z with (Qfloor 0). apply Qfloor_resp_le.
    apply Qmult_le_0_compat; lra.
  - rewrite Zlt_Qlt.
    apply Qle_lt_trans with (r * inject_Z k); [apply Qfloor_le|].
    assert (E : inject_Z k == 1 * inject_Z k) by ring.
    rewrite E at 2. apply Qmult_lt_compat_r; assumption.
Qed.

Lemma at_some {A} (arr : list A) k :
  (0 <= k < Z.of_nat (length arr))%Z -> is_Some (JS.at_ arr (Some k)).
Proof.
  intros Hk. unfold JS.at_.
  destruct (Z.ltb_spec k 0) as [?|_]; [lia|].
  apply lookup_lt_is_Some. lia.
Qed.

Lemma at_Forall {A} (P : A -> Prop) (arr : list A) k v :
  Forall P arr -> JS.at_ arr k = Some v -> P v.
Proof.
  intros HP. unfold JS.at_. destruct k as [k|]; [|discriminate].
  destruct (k <? 0)%Z; [discriminate|].
  intros Hv. exact (Forall_lookup_1 P arr _ v HP Hv).
Qed.

Section Entries.
Variable P : Z -> Prop.

Lemma swap_some (p : list Z) i j :
  (0 <= i < Z.of_nat (length p))%Z -> (0 <= j < Z.of_nat (length p))%Z ->
  Forall P p ->
  exists p', swap p i j = Some p' /\ length p' = length p /\ Forall P p'.
Proof.
  intros Hi Hj HP. unfold swap.
  destruct (at_some p j Hj) as [pj Ej]. destruct (at_some p i Hi) as [pi Ei].
  rewrite Ej, Ei. eexists. split; [reflexivity|]. split.
  - now rewrite !length_insert.
  - apply Forall_insert; [apply Forall_insert; [assumption|]|].
    + exact (at_Forall P p _ _ HP Ej).
    + exact (at_Forall P p _ _ HP Ei).
Qed.

Lemma shuffle_some n : forall rng (p : list Z),
  (0 <= SeededRandom.current rng)%Z -> (n < length p)%nat -> Forall P p ->
  exists p', shuffle n rng p = Some p' /\ length p' = length p /\ Forall P p'.
Proof.
  induction n as [|n IH]; intros rng p Hc Hn HP.
  - exists p. repeat split; assumption.
  - cbn [shuffle].
    pose proof (random_unit rng Hc) as Hr.
    pose proof (random_current_range rng Hc) as Hc'.
    destruct (SeededRandom.random rng) as [r rng'] eqn:E. cbn [fst snd] in *.
    assert (Hk : (0 < Z.of_nat (S n) + 1)%Z) by lia.
    pose proof (floor_scale r (Z.of_nat (S n) + 1) Hr Hk) as Hj.
    assert (Hi : (0 <= Z.of_nat (S n) < Z.of_nat (length p))%Z) by lia.
    assert (Hj' : (0 <= Qfloor (r * inject_Z (Z.of_nat (S n) + 1))
                   < Z.of_nat (length p))%Z) by lia.
    destruct (swap_some p _ _ Hi Hj' HP) as (p' & -> & Hlen & HP').
    assert (Hn' : (n < length p')%nat) by lia.
    destruct (IH rng' p' (proj1 Hc') Hn' HP') as (p'' & Hs & Hlen' & HP'').
    exists p''. split; [assumption|]. split; [congruence|assumption].
Qed.
End Entries.

Lemma generatePermutation_some seed :
  (0 <= seed)%Z ->
  exists p, generatePermutation seed = Some p /\ length p = 512%nat
            /\ Forall (fun v => 0 <= v <= 255)%Z p.
Proof.
  intros Hseed. unfold generatePermutation.
  destruct (shuffle_some (fun v => 0 <= v <= 255)%Z 255 (SeededRandom.new seed)
              (map Z.of_nat (seq 0 256)) Hseed)
    as (p & -> & Hlen & HP).
  - rewrite length_map, length_seq. lia.
  - apply Forall_map, Forall_forall. intros k Hk%elem_of_seq. simpl. lia.
  - exists (p ++ p). split; [reflexivity|]. split.
    + rewrite length_app, Hlen, length_map, length_seq. reflexivity.
    + apply Forall_app; split; assumption.
Qed.

Lemma band_255 z : (0 <= JS.band z 255 <= 255)%Z.
Proof.
  unfold JS.band. change (JS.toInt32 255) with (Z.ones 8).
  rewrite Z.land_ones by lia.
  pose proof (Z.mod_pos_bound (JS.toInt32 z) (2 ^ 8) ltac:(lia)). lia.
Qed.

(** On a table of 512 entries below 256, none of the four lattice
    lookups of [get] is [undefined]. *)
Lemma lattice_defined (perm : list Z) X Y dx dy :
  length perm = 512%nat -> Forall (fun v => 0 <= v <= 255)%Z perm ->
  (0 <= X <= 255)%Z -> (0 <= Y <= 255)%Z ->
  (0 <= dx <= 1)%Z -> (0 <= dy <= 1)%Z ->
  is_Some (JS.at_ perm (plus (JS.at_ perm (Some (X + dx)%Z)) (Y + dy)%Z)).
Proof.
  intros Hlen HP HX HY Hdx Hdy.
  destruct (at_some perm (X + dx)%Z ltac:(lia)) as [a Ea].
  rewrite Ea. cbn [plus].
  pose proof (at_Forall _ perm _ _ HP Ea) as Ha. cbv beta in Ha.
  apply at_some. lia.
Qed.

End Noise.

(** C4: for every seed in the unsigned 32-bit range the noise field is
    built (the shuffle never leaves the table), its table has 512 entries,
    every lattice lookup of a sample is defined, and every sample at
    rational coordinates [(x, y)] lies in [[0, 1]]. *)
Theorem noise_sample_unit (seed : Z) (Hseed : 0 <= seed < 4294967296) :
  exists n, PerlinNoise.new seed = Some n /\
    length (PerlinNoise.permutation n) = 512%nat /\
    forall x y : Q,
      (0 <= PerlinNoise.get n x y <= 1)%Q /\
      let X := JS.band (Qfloor x) 255 in
      let Y := JS.band (Qfloor y) 255 in
      let perm := PerlinNoise.permutation n in
      is_Some (JS.at_ perm (PerlinNoise.plus (JS.at_ perm (Some X)) Y)) /\
      is_Some (JS.at_ perm (PerlinNoise.plus (JS.at_ perm (Some X)) (Y + 1))) /\
      is_Some (JS.at_ perm (PerlinNoise.plus (JS.at_ perm (Some (X + 1))) Y)) /\
      is_Some (JS.at_ perm (PerlinNoise.plus (JS.at_ perm (Some (X + 1))) (Y + 1))).
Proof.
  destruct (generatePermutation_some seed ltac:(lia)) as (p & Hp & Hlen & HP).
  unfold PerlinNoise.new. rewrite Hp.
  eexists. split; [reflexivity|]. split; [exact Hlen|].
  intros x y. split; [apply get_unit|].
  cbv zeta. cbn [PerlinNoise.permutation].
  pose proof (band_255 (Qfloor x)) as HX. pose proof (band_255 (Qfloor y)) as HY.
  revert HX HY.
  generalize (JS.band (Qfloor x) 255), (JS.band (Qfloor y) 255). intros X Y HX HY.
  assert (H01 : 0 <= 0 <= 1) by lia. assert (H11 : 0 <= 1 <= 1) by lia.
  pose proof (lattice_defined p X Y 0 0 Hlen HP HX HY H01 H01) as L00.
  pose proof (lattice_defined p X Y 0 1 Hlen HP HX HY H01 H11) as L01.
  pose proof (lattice_defined p X Y 1 0 Hlen HP HX HY H11 H01) as L10.
  pose proof (lattice_defined p X Y 1 1 Hlen HP HX HY H11 H11) as L11.
  rewrite !Z.add_0_r in *.
  repeat split; assumption.
Qed.

Lemma noise_sample_unit_witness :
  0 <= 42 < 4294967296 /\
  exists n, PerlinNoise.new 42 = Some n /\
    (0 <= PerlinNoise.get n (37 # 10) (- (12 # 5)) <= 1)%Q.
Proof.
  split; [lia|].
  destruct (noise_sample_unit 42 ltac:(lia)) as (n & Hn & _ & H).
  exists n. split; [exact Hn | exact (proj1 (H (37 # 10) (- (12 # 5)))%Q)].
Defined.

(** ** Shape selection *)
Section Shapes.
Import VisualGeneratorNode.
Local Open Scope Q_scope.

Lemma ltb_lt a b : JS.ltb a b = true <-> a < b.
Proof.
  unfold JS.ltb. rewrite negb_true_iff.
  destruct (Qle_bool b a) eqn:E.
  - apply Qle_bool_iff in E. split; [discriminate | lra].
  - split; [|reflexivity]. intros _.
    destruct (Qlt_le_dec a b) as [H|H]; [assumption|].
    apply Qle_bool_iff in H. congruence.
Qed.

Lemma ltb_ge a b : JS.ltb a b = false <-> b <= a.
Proof.
  unfold JS.ltb. rewrite negb_false_iff. apply Qle_bool_iff.
Qed.

(** [x % 100] of a non-negative number. *)
Lemma fmod_100_range x : 0 <= x -> 0 <= JS.fmod x 100 < 100.
Proof.
  intros Hx. unfold JS.fmod, JS.trunc.
  assert (Hq : x == 100 * (x / 100)) by field.
  set (q := x / 100) in *.
  assert (Hq0 : 0 <= q) by lra.
  apply Qle_bool_iff in Hq0 as Hb. rewrite Hb.
  pose proof (Qfloor_le q). pose proof (Qlt_floor q) as Hlt.
  rewrite inject_Z_plus in Hlt. change (inject_Z 1) with 1 in Hlt.
  lra.
Qed.

Lemma shapeSelector_range g offset :
  0 <= SeedGenerator.smoothness (params g) -> (0 <= offset)%Z ->
  0 <= shapeSelector g offset < 100.
Proof.
  intros Hs Ho. unfold shapeSelector. apply fmod_100_range.
  assert (0 <= inject_Z offset)
    by (change 0 with (inject_Z 0); now rewrite <- Zle_Qle).
  lra.
Qed.

(** The shape drawn for an offset does not depend on where and how
    large it is drawn. *)
Lemma drawShape_kind g x y size x' y' size' offset :
  Spec.kindOf (drawShape g x y size offset)
  = Spec.kindOf (drawShape g x' y' size' offset).
Proof.
  unfold drawShape.
  repeat match goal with
         | |- context [if ?b then _ else _] => destruct b
         end; reflexivity.
Qed.

Lemma drawShape_interval g x y size offset :
  0 <= shapeSelector g offset < 100 ->
  exists kind, Spec.kindOf (drawShape g x y size offset) = Some kind /\
    fst (Spec.interval kind) <= shapeSelector g offset < snd (Spec.interval kind).
Proof.
  intros [H0 H100]. unfold drawShape.
  destruct (JS.ltb (shapeSelector g offset) 20) eqn:E20;
    [apply ltb_lt in E20; exists Spec.Circle; simpl; auto|apply ltb_ge in E20].
  destruct (JS.ltb (shapeSelector g offset) 35) eqn:E35;
    [apply ltb_lt in E35; exists Spec.Star; simpl; auto|apply ltb_ge in E35].
  destruct (JS.ltb (shapeSelector g offset) 50) eqn:E50;
    [apply ltb_lt in E50; exists Spec.Rectangle; simpl; auto|apply ltb_ge in E50].
  destruct (JS.ltb (shapeSelector g offset) 70) eqn:E70;
    [apply ltb_lt in E70; exists Spec.RegularPolygon; simpl; auto|apply ltb_ge in E70].
  exists Spec.Blob; simpl; auto.
Qed.

Lemma flowLoop_S g accentColors layer n flow rng :
  flowLoop g accentColors layer (S n) flow rng =
  let r1 := SeededRandom.random rng in
  let r2 := SeededRandom.random (snd r1) in
  let r3 := SeededRandom.random (snd r2) in
  let rest := flowLoop g accentColors layer n (flow + 1)%Z (snd r3) in
  (FillStyle (colorAt accentColors flow)
     :: drawShape g (fst r1 * inject_Z (width g)) (fst r2 * inject_Z (height g))
          (50 + fst r3 * (150 * SeedGenerator.complexity (params g)))
          (flow + layer * 100)%Z
     :: fst rest,
   snd rest).
Proof.
  cbn [flowLoop].
  destruct (SeededRandom.random rng) as [a1 s1]; cbn [fst snd].
  destruct (SeededRandom.random s1) as [a2 s2]; cbn [fst snd].
  destruct (SeededRandom.random s2) as [a3 s3]; cbn [fst snd].
  destruct (flowLoop g accentColors layer n (flow + 1)%Z s3); reflexivity.
Qed.

Lemma omap_step {A B} (f : A -> option B) x l :
  omap f (x :: l) = match f x with Some y => y :: omap f l | None => omap f l end.
Proof. reflexivity. Qed.

(** The kinds drawn by a run of flows do not depend on the state of the
    random generator at its start. *)
Lemma flowLoop_kinds g accentColors layer n : forall flow rng1 rng2,
  omap Spec.kindOf (fst (flowLoop g accentColors layer n flow rng1))
  = omap Spec.kindOf (fst (flowLoop g accentColors layer n flow rng2)).
Proof.
  induction n as [|n IH]; intros flow rng1 rng2; [reflexivity|].
  rewrite !flowLoop_S. cbv zeta. cbn [fst].
  rewrite !omap_step. cbn [Spec.kindOf].
  match goal with
  | |- match Spec.kindOf (drawShape g ?x ?y ?s ?o) with _ => _ end
       = match Spec.kindOf (drawShape g ?x' ?y' ?s' _) with _ => _ end =>
      rewrite (drawShape_kind g x y s x' y' s' o)
  end.
  match goal with
  | |- context [flowLoop g accentColors layer n (flow + 1)%Z ?a] =>
      match goal with
      | |- _ = match _ with
               | Some _ => _ :: omap _ (fst (flowLoop _ _ _ _ _ ?b))
               | None => _ end =>
          rewrite (IH (flow + 1)%Z a b)
      end
  end.
  reflexivity.
Qed.

(** On a number that is not negative, [%] is the remainder of the floored
    division. *)
Lemma fmod_qmod x : 0 <= x -> JS.fmod x 100 = Spec.qmod x 100.
Proof.
  intros Hx. unfold JS.fmod, JS.trunc, Spec.qmod.
  assert (Hq : x == 100 * (x / 100)) by field.
  assert (Hq0 : 0 <= x / 100) by lra.
  apply Qle_bool_iff in Hq0. now rewrite Hq0.
Qed.

Lemma selector_argument_nonneg g offset :
  0 <= SeedGenerator.smoothness (params g) -> (0 <= offset)%Z ->
  0 <= inject_Z offset * 37 + SeedGenerator.smoothness (params g) * 100.
Proof.
  intros Hs Ho.
  assert (0 <= inject_Z offset)
    by (change 0 with (inject_Z 0); now rewrite <- Zle_Qle).
  lra.
Qed.

(** The selector of the source is [(offset*37 + smoothness*100) mod 100]. *)
Lemma shapeSelector_spec g offset :
  0 <= SeedGenerator.smoothness (params g) -> (0 <= offset)%Z ->
  shapeSelector g offset = Spec.selector offset (SeedGenerator.smoothness (params g)).
Proof.
  intros Hs Ho. unfold shapeSelector, Spec.selector.
  apply fmod_qmod. now apply selector_argument_nonneg.
Qed.

(** The selector differs from its argument by a whole number of hundreds. *)
Lemma shapeSelector_decompose g offset :
  0 <= SeedGenerator.smoothness (params g) -> (0 <= offset)%Z ->
  exists k : Z, (0 <= k)%Z /\
    (inject_Z offset * 37 + SeedGenerator.smoothness (params g) * 100
     == 100 * inject_Z k + shapeSelector g offset).
Proof.
  intros Hs Ho. rewrite shapeSelector_spec by assumption.
  unfold Spec.selector, Spec.qmod.
  pose proof (selector_argument_nonneg g offset Hs Ho) as Hx.
  set (x := inject_Z offset * 37 + SeedGenerator.smoothness (params g) * 100) in *.
  exists (Qfloor (x / 100)). split; [|ring].
  change 0%Z with (Qfloor 0). apply Qfloor_resp_le.
  assert (Hq : x == 100 * (x / 100)) by field.
  lra.
Qed.

(** The [i]-th shape of a run of flows is of the kind whose interval holds
    the selector of the offset [flow + i + layer*100]. *)
Lemma flowLoop_selectors g accentColors layer n : forall flow rng (i : nat) kind,
  0 <= SeedGenerator.smoothness (params g) -> (0 <= layer)%Z -> (0 <= flow)%Z ->
  omap Spec.kindOf (fst (flowLoop g accentColors layer n flow rng)) !! i = Some kind ->
  (i < n)%nat /\
  fst (Spec.interval kind)
  <= Spec.selector (flow + Z.of_nat i + layer * 100)
       (SeedGenerator.smoothness (params g))
  < snd (Spec.interval kind).
Proof.
  induction n as [|n IH]; intros flow rng i kind Hs Hl Hf; [discriminate|].
  rewrite flowLoop_S. cbv zeta. cbn [fst].
  rewrite !omap_step. cbn [Spec.kindOf].
  assert (Hr : 0 <= shapeSelector g (flow + layer * 100) < 100)
    by (apply shapeSelector_range; [assumption|lia]).
  match goal with
  | |- context [drawShape g ?x ?y ?s ?o] =>
      destruct (drawShape_interval g x y s o Hr) as (k & -> & Hk)
  end.
  destruct i as [|i]; cbn [lookup list_lookup].
  - intros [= <-]. split; [lia|].
    replace (flow + Z.of_nat 0 + layer * 100)%Z with (flow + layer * 100)%Z by lia.
    rewrite <- shapeSelector_spec by (assumption || lia). exact Hk.
  - intros Hi. apply IH in Hi as [Hlt Hi]; [|assumption|assumption|lia].
    split; [lia|].
    replace (flow + Z.of_nat (S i) + layer * 100)%Z
      with (flow + 1 + Z.of_nat i + layer * 100)%Z by lia.
    exact Hi.
Qed.

Lemma flowLoop_shapes g accentColors layer n : forall flow rng,
  length (omap Spec.kindOf (fst (flowLoop g accentColors layer n flow rng))) = n.
Proof.
  induction n as [|n IH]; intros flow rng; [reflexivity|].
  rewrite flowLoop_S. cbv zeta. cbn [fst].
  rewrite !omap_step. cbn [Spec.kindOf].
  match goal with
  | |- context [drawShape g ?x ?y ?s ?o] =>
      destruct (drawShape g x y s o) eqn:E; cbn [Spec.kindOf];
      try (cbn [length]; now rewrite IH)
  end;
  unfold drawShape in E;
  repeat match type of E with
         | (if ?b then _ else _) = _ => destruct b
         end; discriminate E.
Qed.

End Shapes.

(** The smoothness mapped from the metrics of any text is non-negative,
    as the selector range requires. *)
Lemma total_length_nonneg (ws : list JS.str) : forall acc,
  0 <= acc -> 0 <= fold_left (fun sum word => sum + Z.of_nat (length word)) ws acc.
Proof.
  induction ws as [|w ws IH]; intros acc Hacc; simpl; [assumption|].
  apply IH. lia.
Qed.

Lemma analyze_smoothness_nonneg (a : ContentAnalyzer.t) :
  (0 <= SeedGenerator.smoothness
          (SeedGenerator.generateVisualParams (ContentAnalyzer.analyze a)))%Q.
Proof.
  cbn [SeedGenerator.generateVisualParams SeedGenerator.smoothness
       ContentAnalyzer.analyze ContentAnalyzer.avgWordLength].
  set (ws := ContentAnalyzer.getWords a).
  match goal with
  | |- context [fold_left ?f ws ?z] => set (total := fold_left f ws z)
  end.
  assert (Htotal : 0 <= total) by (apply total_length_nonneg; lia).
  match goal with
  | |- context [JS.round (?x * 10)] => set (avg := x)
  end.
  assert (Havg : (0 <= avg)%Q).
  { unfold avg. destruct (Z.ltb_spec 0 (Z.of_nat (length ws))) as [Hpos|_].
    - apply Qle_shift_div_l.
      + change 0%Q with (inject_Z 0). now rewrite <- Zlt_Qlt.
      + rewrite Qmult_0_l. change 0%Q with (inject_Z 0). now rewrite <- Zle_Qle.
    - apply Qle_refl. }
  assert (Hround : 0 <= JS.round (avg * 10)).
  { unfold JS.round. change 0 with (Qfloor 0). apply Qfloor_resp_le. lra. }
  assert (Hrounded : (0 <= inject_Z (JS.round (avg * 10)) / 10)%Q).
  { apply Qle_shift_div_l; [reflexivity|].
    rewrite Qmult_0_l. change 0%Q with (inject_Z 0). now rewrite <- Zle_Qle. }
  unfold JS.min.
  destruct (Qle_bool _ 1).
  - apply Qle_shift_div_l; [reflexivity|]. lra.
  - discriminate.
Qed.

(** C5: for every flow, the selector of the renderer is
    [(offset*37 + smoothness*100) mod 100]: it lies in [[0,100)] and differs
    from [offset*37 + smoothness*100] by a whole number of hundreds, so it is
    determined by the offset and the smoothness alone; the shape drawn for
    an offset is the same wherever and however large it is drawn, and the
    kinds drawn by a run of flows are the same from any state of the random
    generator; the kind is the one whose interval among [[0,20)] circle,
    [[20,35)] star, [[35,50)] rectangle, [[50,70)] regular polygon,
    [[70,100)] blob holds the selector, and the [i]-th shape of a run of
    [n] flows is of the kind selected for the offset
    [flow + i + layer*100]. *)
Theorem shape_selector_stable (g g' : VisualGeneratorNode.t)
    (accentColors : list string) (layer flow : Z) (n : nat)
    (rng1 rng2 : SeededRandom.t) (x1 y1 size1 x2 y2 size2 : Q)
    (Hsmooth : (0 <= SeedGenerator.smoothness (VisualGeneratorNode.params g))%Q)
    (Hlayer : 0 <= layer) (Hflow : 0 <= flow)
    (Hsame : SeedGenerator.smoothness (VisualGeneratorNode.params g')
             = SeedGenerator.smoothness (VisualGeneratorNode.params g)) :
  let offset := flow + layer * 100 in
  let smoothness := SeedGenerator.smoothness (VisualGeneratorNode.params g) in
  let selector := VisualGeneratorNode.shapeSelector g offset in
  (0 <= selector < 100)%Q /\
  selector = Spec.selector offset smoothness /\
  (exists k : Z, 0 <= k /\
     (inject_Z offset * 37 + smoothness * 100 == 100 * inject_Z k + selector)%Q) /\
  VisualGeneratorNode.shapeSelector g' offset = selector /\
  Spec.kindOf (VisualGeneratorNode.drawShape g x1 y1 size1 offset)
    = Spec.kindOf (VisualGeneratorNode.drawShape g x2 y2 size2 offset) /\
  (exists kind,
     Spec.kindOf (VisualGeneratorNode.drawShape g x1 y1 size1 offset) = Some kind /\
     (fst (Spec.interval kind) <= selector < snd (Spec.interval kind))%Q) /\
  omap Spec.kindOf (fst (VisualGeneratorNode.flowLoop g accentColors layer n flow rng1))
    = omap Spec.kindOf (fst (VisualGeneratorNode.flowLoop g accentColors layer n flow rng2)) /\
  length (omap Spec.kindOf
            (fst (VisualGeneratorNode.flowLoop g accentColors layer n flow rng1))) = n /\
  (forall (i : nat) kind,
     omap Spec.kindOf
       (fst (VisualGeneratorNode.flowLoop g accentColors layer n flow rng1)) !! i
     = Some kind ->
     (i < n)%nat /\
     (fst (Spec.interval kind)
      <= Spec.selector (flow + Z.of_nat i + layer * 100) smoothness
      < snd (Spec.interval kind))%Q).
Proof.
  intros offset smoothness selector.
  assert (Hoffset : 0 <= offset) by (unfold offset; lia).
  assert (Hr : (0 <= selector < 100)%Q)
    by (apply shapeSelector_range; assumption).
  split; [exact Hr|].
  split; [apply shapeSelector_spec; assumption|].
  split; [apply shapeSelector_decompose; assumption|].
  split; [unfold selector, VisualGeneratorNode.shapeSelector; now rewrite Hsame|].
  split; [apply drawShape_kind|].
  split; [apply drawShape_interval; exact Hr|].
  split; [apply flowLoop_kinds|].
  split; [apply flowLoop_shapes|].
  intros i kind Hi.
  exact (flowLoop_selectors g accentColors layer n flow rng1 i kind
           Hsmooth Hlayer Hflow Hi).
Qed.

Lemma shape_selector_stable_witness :
  let g := Sample.generator Sample.params in
  (0 <= SeedGenerator.smoothness (VisualGeneratorNode.params g))%Q /\
  VisualGeneratorNode.shapeSelector g (5 + 1 * 100)
  = Spec.selector (5 + 1 * 100)
      (SeedGenerator.smoothness (VisualGeneratorNode.params g)) /\
  omap Spec.kindOf
    (fst (VisualGeneratorNode.flowLoop g Sample.accents 1 5 5
            (SeededRandom.new 1)))
  = omap Spec.kindOf
      (fst (VisualGeneratorNode.flowLoop g Sample.accents 1 5 5
              (SeededRandom.new 2))).
Proof.
  intros g.
  assert (Hs : (0 <= SeedGenerator.smoothness (VisualGeneratorNode.params g))%Q)
    by (vm_compute; discriminate).
  assert (H1 : 0 <= 1) by lia.
  assert (H5 : 0 <= 5) by lia.
  destruct (shape_selector_stable g g Sample.accents 1 5 5
              (SeededRandom.new 1) (SeededRandom.new 2) 0 0 0 0 0 0
              Hs H1 H5 eq_refl)
    as (_ & Hspec & _ & _ & _ & _ & Hkinds & _).
  split; [exact Hs|]. split; [exact Hspec | exact Hkinds].
Defined.

(** ** Stroke width *)

(** The Node.js renderer strokes each of the three curves of a layer with
    the width [minStroke + complexity*(maxStroke - minStroke)]. *)
Lemma node_line_width g accentColors layer :
  Spec.lineWidths (VisualGeneratorNode.curveLoop g accentColors layer)
  = [Spec.strokeWidth (VisualGeneratorNode.params g);
     Spec.strokeWidth (VisualGeneratorNode.params g);
     Spec.strokeWidth (VisualGeneratorNode.params g)].
Proof. reflexivity. Qed.

(** C6: the renderer of the browser does not use the stroke bounds.  With
    complexity 0.5 and the bounds 0.5 and 1.5 the width of the claim is 1,
    which is what the Node.js renderer sets for each of the three curves,
    while the p5.js renderer sets [2 + 0.5*3 = 3.5]. *)
Theorem browser_stroke_weight_ignores_bounds :
  let p := Sample.params in
  let g := Sample.generator p in
  Qred (Spec.strokeWidth p) = 1%Q /\
  map Qred (Spec.lineWidths (VisualGeneratorNode.curveLoop g Sample.accents 0))
    = [1; 1; 1]%Q /\
  map Qred (Spec.strokeWeights (VisualGenerator.curveLoop p Sample.accents 0))
    = [7 # 2; 7 # 2; 7 # 2].
Proof. vm_compute. repeat split; reflexivity. Qed.

(** ** Direct crop *)
Section Crop.
Import Canvas.

Lemma overlay_all {A} n : forall top bottom : list A,
  length top = n -> length bottom = n -> overlay n top bottom = top.
Proof.
  induction n as [|n IH]; intros [|t ts] [|b bs] Ht Hb;
    simpl in *; try discriminate; try reflexivity.
  f_equal. apply IH; congruence.
Qed.

Lemma overlayRows_all {A} (x : A) w h : forall top : list (list A),
  length top = h -> Forall (fun row => length row = w) top ->
  overlayRows h w top (repeat (repeat x w) h) = top.
Proof.
  induction h as [|h IH]; intros [|t ts] Hlen Hrows;
    simpl in *; try discriminate; try reflexivity.
  inversion Hrows; subst. f_equal.
  - apply overlay_all; [reflexivity | apply repeat_length].
  - apply IH; [congruence | assumption].
Qed.

Lemma wf_spec c :
  wf c = true ->
  length (pixels c) = height c /\ Forall (fun row => length row = width c) (pixels c).
Proof.
  unfold wf. intros [H1 H2]%andb_prop. split.
  - now apply Nat.eqb_eq.
  - apply Forall_forall. intros row Hin.
    rewrite forallb_forall in H2. apply Nat.eqb_eq, H2.
    now apply list_elem_of_In.
Qed.

(** Copying the whole of a canvas onto a fresh canvas of its size gives
    the canvas back. *)
Lemma drawImage_whole c :
  wf c = true ->
  drawImage (createCanvas (width c) (height c)) c (width c) (height c) = c.
Proof.
  intros [Hh Hw]%wf_spec. destruct c as [w h px]. unfold drawImage. simpl in *.
  f_equal. apply overlayRows_all; assumption.
Qed.

End Crop.

(** C7: in direct crop mode, the square format (1200 by 1200) derived from
    a master of the master size is the master itself, pixel for pixel, both
    in the command-line generator and in the web application. *)
Theorem direct_crop_square_identity
    (resizeAndCrop : Canvas.t -> Canvas.t -> nat -> nat -> Canvas.t)
    (cfg : ImageGenerator.config) (master : Canvas.t) (fmt : ImageGenerator.format)
    (Hmode : ImageGenerator.cropMode cfg = "direct"%string)
    (Hfmt : ImageGenerator.formatMap "square" = Some fmt)
    (Hwf : Canvas.wf master = true)
    (Hw : Canvas.width master = ImageGenerator.masterSize)
    (Hh : Canvas.height master = ImageGenerator.masterSize) :
  ImageGenerator.applyCropMode resizeAndCrop cfg master
    (ImageGenerator.fwidth fmt) (ImageGenerator.fheight fmt) = master /\
  ImageGenerator.createCroppedCanvas resizeAndCrop master
    (ImageGenerator.fwidth fmt) (ImageGenerator.fheight fmt) "direct" = master.
Proof.
  injection Hfmt as <-. cbn [ImageGenerator.fwidth ImageGenerator.fheight].
  unfold ImageGenerator.applyCropMode, ImageGenerator.createCroppedCanvas.
  rewrite Hmode. cbn [String.eqb Ascii.eqb Bool.eqb].
  pose proof (drawImage_whole master Hwf) as H.
  rewrite Hw, Hh in H. unfold ImageGenerator.masterSize in H.
  split; exact H.
Qed.

Lemma direct_crop_square_identity_witness :
  Canvas.wf Sample.master = true /\
  ImageGenerator.applyCropMode (fun dst _ _ _ => dst) Sample.config Sample.master
    1200 1200 = Sample.master.
Proof.
  assert (Hwf : Canvas.wf Sample.master = true) by (vm_compute; reflexivity).
  split; [exact Hwf|].
  exact (proj1 (direct_crop_square_identity (fun dst _ _ _ => dst)
                  Sample.config Sample.master
                  {| ImageGenerator.name := "square";
                     ImageGenerator.fwidth := 1200;
                     ImageGenerator.fheight := 1200 |}
                  eq_refl eq_refl Hwf eq_refl eq_refl)).
Defined.


(** * Further properties of the pipeline *)

(** ** Parameter mapping *)
Section Mapping.
Local Open Scope Q_scope.

Lemma min_le_r a b : JS.min a b <= b.
Proof.
  unfold JS.min. destruct (Qle_bool a b) eqn:E.
  - now apply Qle_bool_iff.
  - apply Qle_refl.
Qed.

Lemma min_ge a b c : c <= a -> c <= b -> c <= JS.min a b.
Proof. intros Ha Hb. unfold JS.min. now destruct (Qle_bool a b). Qed.

Lemma inject_Z_nonneg z : (0 <= z)%Z -> 0 <= inject_Z z.
Proof. intros H. change 0 with (inject_Z 0). now rewrite <- Zle_Qle. Qed.

Lemma ratio_unit z d : (0 <= z)%Z -> 0 < d -> 0 <= JS.min (inject_Z z / d) 1 <= 1.
Proof.
  intros Hz Hd. split; [|apply min_le_r].
  apply min_ge; [|lra].
  apply Qle_shift_div_l; [assumption|].
  pose proof (inject_Z_nonneg z Hz). lra.
Qed.

Lemma analyze_avgWordLength_nonneg (a : ContentAnalyzer.t) :
  0 <= ContentAnalyzer.avgWordLength (ContentAnalyzer.analyze a).
Proof.
  cbn [ContentAnalyzer.analyze ContentAnalyzer.avgWordLength].
  set (ws := ContentAnalyzer.getWords a).
  match goal with
  | |- context [fold_left ?f ws ?z] => set (total := fold_left f ws z)
  end.
  assert (Htotal : (0 <= total)%Z) by (apply total_length_nonneg; lia).
  match goal with
  | |- context [JS.round (?x * 10)] => set (avg := x)
  end.
  assert (Havg : 0 <= avg).
  { unfold avg. destruct (Z.ltb_spec 0 (Z.of_nat (length ws))) as [Hpos|_].
    - apply Qle_shift_div_l.
      + change 0 with (inject_Z 0). now rewrite <- Zlt_Qlt.
      + rewrite Qmult_0_l. now apply inject_Z_nonneg.
    - apply Qle_refl. }
  assert (Hround : (0 <= JS.round (avg * 10))%Z).
  { unfold JS.round. change 0%Z with (Qfloor 0). apply Qfloor_resp_le. lra. }
  apply Qle_shift_div_l; [reflexivity|].
  rewrite Qmult_0_l. now apply inject_Z_nonneg.
Qed.

Lemma floor_ge z x : inject_Z z <= x -> (z <= Qfloor x)%Z.
Proof. intros H. rewrite <- (Qfloor_Z z). now apply Qfloor_resp_le. Qed.

Lemma floor_le z x : x <= inject_Z z -> (Qfloor x <= z)%Z.
Proof. intros H. rewrite <- (Qfloor_Z z). now apply Qfloor_resp_le. Qed.

Lemma numLayers_bounds (g : VisualGeneratorNode.t) :
  SeedGenerator.layers (VisualGeneratorNode.params g) <= 10 ->
  (3 <= VisualGeneratorNode.numLayers g <= 10)%Z.
Proof.
  intros H. unfold VisualGeneratorNode.numLayers.
  apply Qfloor_resp_le in H. change (Qfloor 10) with 10%Z in H. lia.
Qed.

End Mapping.

(** X1: for every text, the mapped density, complexity and smoothness lie
    in [[0, 1]], the layers value in [[0, 10]] and the number of shape
    vertices in [[3, 20]]. *)
Theorem mapped_parameters_in_range (a : ContentAnalyzer.t) :
  let p := SeedGenerator.generateVisualParams (ContentAnalyzer.analyze a) in
  (0 <= SeedGenerator.density p <= 1)%Q /\
  (0 <= SeedGenerator.complexity p <= 1)%Q /\
  (0 <= SeedGenerator.smoothness p <= 1)%Q /\
  (0 <= SeedGenerator.layers p <= 10)%Q /\
  3 <= SeedGenerator.shapeVertices p <= 20.
Proof.
  intros p.
  split; [apply ratio_unit; [apply Nat2Z.is_nonneg | reflexivity]|].
  split; [apply ratio_unit; [apply Nat2Z.is_nonneg | reflexivity]|].
  split.
  { split; [apply analyze_smoothness_nonneg | apply min_le_r]. }
  split.
  { split; [|apply min_le_r].
    apply min_ge; [|discriminate].
    apply inject_Z_nonneg.
    cbn [ContentAnalyzer.analyze ContentAnalyzer.readingTime].
    change 0 with (Qceiling 0). apply Qceiling_resp_le.
    apply Qle_shift_div_l; [reflexivity|].
    rewrite Qmult_0_l. apply inject_Z_nonneg, Nat2Z.is_nonneg. }
  subst p. cbn [SeedGenerator.generateVisualParams SeedGenerator.shapeVertices]. lia.
Qed.

(** X2: for a generator whose parameters were mapped from a text (with
    any stroke bounds added), every layer has between 5 and 15 flows, there
    are between 3 and 10 layers, and the fallback [shapeVertices || 8] is
    never taken. *)
Theorem renderer_counts_in_range (g : VisualGeneratorNode.t)
    (a : ContentAnalyzer.t) (lo hi : option Q)
    (Hg : VisualGeneratorNode.params g
          = SeedGenerator.withStroke
              (SeedGenerator.generateVisualParams (ContentAnalyzer.analyze a)) lo hi) :
  5 <= VisualGeneratorNode.numFlows g <= 15 /\
  3 <= VisualGeneratorNode.numLayers g <= 10 /\
  VisualGeneratorNode.shapeVertices_ g
    = SeedGenerator.shapeVertices (VisualGeneratorNode.params g) /\
  3 <= VisualGeneratorNode.shapeVertices_ g <= 20.
Proof.
  pose proof (mapped_parameters_in_range a) as (Hd & _ & _ & _ & Hv).
  cbv zeta in Hd, Hv.
  split.
  { unfold VisualGeneratorNode.numFlows. rewrite Hg.
    cbn [SeedGenerator.withStroke SeedGenerator.density].
    split.
    - apply floor_ge. change (inject_Z 5) with 5%Q. lra.
    - apply floor_le. change (inject_Z 15) with 15%Q. lra. }
  split.
  { apply numLayers_bounds. rewrite Hg. cbn [SeedGenerator.withStroke SeedGenerator.layers].
    apply min_le_r. }
  unfold VisualGeneratorNode.shapeVertices_. rewrite Hg.
  cbn [SeedGenerator.withStroke SeedGenerator.shapeVertices].
  destruct (Z.eqb_spec
              (SeedGenerator.shapeVertices
                 (SeedGenerator.generateVisualParams (ContentAnalyzer.analyze a))) 0)
    as [E|_]; [lia|].
  split; [reflexivity | exact Hv].
Qed.

Lemma renderer_counts_in_range_witness :
  let g := Sample.generator
             (SeedGenerator.withStroke
                (SeedGenerator.generateVisualParams Sample.metrics)
                (Some (1 # 2)) (Some (3 # 2))) in
  5 <= VisualGeneratorNode.numFlows g <= 15.
Proof.
  intros g.
  exact (proj1 (renderer_counts_in_range g (ContentAnalyzer.new Sample.text)
                  (Some (1 # 2)) (Some (3 # 2)) eq_refl)).
Defined.

(** ** The trace of [drawOrganicFlows] *)
Section Trace.
Import VisualGeneratorNode.

Lemma after_add a : forall b r,
  SeededRandom.after (a + b) r = SeededRandom.after b (SeededRandom.after a r).
Proof. induction a as [|a IH]; intros b r; simpl; [reflexivity | apply IH]. Qed.

Lemma drawShape_placement g x y size offset :
  Observe.placement (drawShape g x y size offset) = Some (x, y, size)
  /\ is_Some (Spec.kindOf (drawShape g x y size offset))
  /\ Observe.curves [drawShape g x y size offset] = [].
Proof.
  unfold drawShape.
  repeat match goal with
         | |- context [if ?b then _ else _] => destruct b
         end; repeat split; eexists; reflexivity.
Qed.

Lemma layerLoop_S g accentColors n layer rng :
  layerLoop g accentColors (S n) layer rng =
  let flows := flowLoop g accentColors layer (Z.to_nat (numFlows g)) 0 rng in
  let rest := layerLoop g accentColors n (layer + 1) (snd flows) in
  (fst flows ++ curveLoop g accentColors layer ++ fst rest, snd rest).
Proof.
  cbn [layerLoop].
  destruct (flowLoop g accentColors layer (Z.to_nat (numFlows g)) 0 rng) as [fl r1].
  cbn [fst snd].
  destruct (layerLoop g accentColors n (layer + 1) r1); reflexivity.
Qed.

(** A run of [n] flows draws [n] shapes, strokes no curve and makes three
    draws from the generator per flow. *)
Lemma flowLoop_structure g accentColors layer n : forall flow rng,
  length (omap Spec.kindOf (fst (flowLoop g accentColors layer n flow rng))) = n
  /\ Observe.curves (fst (flowLoop g accentColors layer n flow rng)) = []
  /\ snd (flowLoop g accentColors layer n flow rng) = SeededRandom.after (3 * n) rng.
Proof.
  induction n as [|n IH]; intros flow rng; [repeat split; reflexivity|].
  rewrite flowLoop_S. cbv zeta. cbn [fst snd].
  match goal with
  | |- context [flowLoop g accentColors layer n (flow + 1) ?r] =>
      destruct (IH (flow + 1) r) as (IH1 & IH2 & IH3)
  end.
  split; [|split].
  - rewrite !omap_step. cbn [Spec.kindOf].
    match goal with
    | |- context [drawShape g ?x ?y ?s ?o] =>
        destruct (drawShape_placement g x y s o) as (_ & [k ->] & _)
    end.
    cbn [length]. now rewrite IH1.
  - unfold Observe.curves in *. rewrite !omap_step.
    match goal with
    | |- context [drawShape g ?x ?y ?s ?o] =>
        pose proof (proj2 (proj2 (drawShape_placement g x y s o))) as Hc;
        unfold Observe.curves in Hc; rewrite omap_step in Hc;
        destruct (drawShape g x y s o); try discriminate Hc
    end; exact IH2.
  - rewrite IH3. replace (3 * S n)%nat with (3 + 3 * n)%nat by lia.
    rewrite after_add. reflexivity.
Qed.

Lemma flowLoop_inside g accentColors layer n : forall flow rng,
  0 <= SeededRandom.current rng ->
  0 < width g -> 0 < height g ->
  (0 <= SeedGenerator.complexity (params g))%Q ->
  Forall (Observe.inside g)
         (omap Observe.placement (fst (flowLoop g accentColors layer n flow rng))).
Proof.
  induction n as [|n IH]; intros flow rng Hc Hw Hh Hcx; [constructor|].
  rewrite flowLoop_S. cbv zeta. cbn [fst snd].
  pose proof (random_unit rng Hc) as H1.
  pose proof (random_current_range rng Hc) as Hc1.
  destruct (SeededRandom.random rng) as [r1 s1]. cbn [fst snd] in *.
  pose proof (random_unit s1 (proj1 Hc1)) as H2.
  pose proof (random_current_range s1 (proj1 Hc1)) as Hc2.
  destruct (SeededRandom.random s1) as [r2 s2]. cbn [fst snd] in *.
  pose proof (random_unit s2 (proj1 Hc2)) as H3.
  pose proof (random_current_range s2 (proj1 Hc2)) as Hc3.
  destruct (SeededRandom.random s2) as [r3 s3]. cbn [fst snd] in *.
  rewrite !omap_step. cbn [Observe.placement].
  rewrite (proj1 (drawShape_placement g _ _ _ _)).
  constructor; [|apply IH; [apply Hc3 | assumption..]].
  assert (Hw' : (0 < inject_Z (width g))%Q)
    by (change 0%Q with (inject_Z 0); now rewrite <- Zlt_Qlt).
  assert (Hh' : (0 < inject_Z (height g))%Q)
    by (change 0%Q with (inject_Z 0); now rewrite <- Zlt_Qlt).
  unfold Observe.inside.
  set (W := inject_Z (width g)) in *. set (H := inject_Z (height g)) in *.
  set (c := SeedGenerator.complexity (params g)) in *.
  assert (0 <= r1 * W)%Q by (apply Qmult_le_0_compat; lra).
  assert (0 <= r2 * H)%Q by (apply Qmult_le_0_compat; lra).
  assert (0 < (1 - r1) * W)%Q by (apply Qmult_lt_0_compat; lra).
  assert (0 < (1 - r2) * H)%Q by (apply Qmult_lt_0_compat; lra).
  assert (0 <= r3 * (150 * c))%Q by (apply Qmult_le_0_compat; lra).
  assert (0 <= (1 - r3) * (150 * c))%Q by (apply Qmult_le_0_compat; lra).
  repeat split; lra.
Qed.

Lemma layerLoop_structure g accentColors n : forall layer rng,
  0 <= layer ->
  let F := Z.to_nat (numFlows g) in
  length (omap Spec.kindOf (fst (layerLoop g accentColors n layer rng))) = (n * F)%nat
  /\ length (Observe.curves (fst (layerLoop g accentColors n layer rng))) = (3 * n)%nat
  /\ Forall (fun offset => 0 <= offset)
            (Observe.curves (fst (layerLoop g accentColors n layer rng)))
  /\ snd (layerLoop g accentColors n layer rng) = SeededRandom.after (3 * (n * F)) rng.
Proof.
  induction n as [|n IH]; intros layer rng Hl F.
  - repeat split; try reflexivity. constructor.
  - rewrite layerLoop_S. cbv zeta. cbn [fst snd].
    destruct (flowLoop_structure g accentColors layer F 0 rng) as (F1 & F2 & F3).
    fold F.
    destruct (IH (layer + 1)
                (snd (flowLoop g accentColors layer F 0 rng)) ltac:(lia))
      as (I1 & I2 & I3 & I4).
    fold F in I1, I4.
    split; [|split; [|split]].
    + rewrite !omap_app, !length_app, F1, I1. cbn. lia.
    + unfold Observe.curves in *. rewrite !omap_app, !length_app, F2, I2. cbn. lia.
    + unfold Observe.curves in *. rewrite !omap_app, F2.
      apply Forall_app; split; [constructor|].
      apply Forall_app; split; [|exact I3].
      cbn. repeat constructor; lia.
    + rewrite I4, F3, <- after_add. f_equal. lia.
Qed.

Lemma layerLoop_inside g accentColors n : forall layer rng,
  0 <= SeededRandom.current rng < 4294967296 ->
  0 < width g -> 0 < height g ->
  (0 <= SeedGenerator.complexity (params g))%Q ->
  Forall (Observe.inside g)
         (omap Observe.placement (fst (layerLoop g accentColors n layer rng))).
Proof.
  induction n as [|n IH]; intros layer rng Hc Hw Hh Hcx; [constructor|].
  rewrite layerLoop_S. cbv zeta. cbn [fst snd].
  rewrite !omap_app. apply Forall_app; split; [|apply Forall_app; split].
  - apply flowLoop_inside; [lia | assumption..].
  - cbn. constructor.
  - apply IH; try assumption.
    rewrite (proj2 (proj2 (flowLoop_structure g accentColors layer _ 0 rng))).
    now apply after_current_range.
Qed.

End Trace.

(** X3: [drawOrganicFlows] draws exactly [numLayers * numFlows] shapes and
    strokes exactly [3 * numLayers] curves, all at non-negative offsets, and
    leaves the random generator advanced by exactly three draws per shape;
    nothing else of the generator object changes. *)
Theorem drawOrganicFlows_counts (g : VisualGeneratorNode.t) (accentColors : list string) :
  let L := Z.to_nat (VisualGeneratorNode.numLayers g) in
  let F := Z.to_nat (VisualGeneratorNode.numFlows g) in
  let trace := fst (VisualGeneratorNode.drawOrganicFlows g accentColors) in
  let g' := snd (VisualGeneratorNode.drawOrganicFlows g accentColors) in
  length (omap Spec.kindOf trace) = (L * F)%nat /\
  length (Observe.curves trace) = (3 * L)%nat /\
  Forall (fun offset => 0 <= offset) (Observe.curves trace) /\
  VisualGeneratorNode.rng g'
    = SeededRandom.after (3 * (L * F)) (VisualGeneratorNode.rng g) /\
  VisualGeneratorNode.params g' = VisualGeneratorNode.params g /\
  VisualGeneratorNode.noise g' = VisualGeneratorNode.noise g.
Proof.
  intros L F trace g'. subst trace g'. unfold VisualGeneratorNode.drawOrganicFlows.
  pose proof (layerLoop_structure g accentColors L 0 (VisualGeneratorNode.rng g)
                ltac:(lia)) as H.
  cbv zeta in H. fold L F in H |- *.
  destruct (VisualGeneratorNode.layerLoop g accentColors L 0 (VisualGeneratorNode.rng g))
    as [cmds r].
  cbn [fst snd VisualGeneratorNode.rng VisualGeneratorNode.params
       VisualGeneratorNode.noise] in *.
  destruct H as (H1 & H2 & H3 & H4). repeat split; assumption.
Qed.

(** X4: when the generator state is a 32-bit value, the canvas is not
    empty and the complexity is not negative, every shape that
    [drawOrganicFlows] draws is centred inside the canvas and has a size
    between 50 and [50 + 150*complexity]. *)
Theorem shapes_inside_canvas (g : VisualGeneratorNode.t) (accentColors : list string)
    (Hrng : 0 <= SeededRandom.current (VisualGeneratorNode.rng g) < 4294967296)
    (Hw : 0 < VisualGeneratorNode.width g) (Hh : 0 < VisualGeneratorNode.height g)
    (Hc : (0 <= SeedGenerator.complexity (VisualGeneratorNode.params g))%Q) :
  Forall (Observe.inside g)
    (omap Observe.placement (fst (VisualGeneratorNode.drawOrganicFlows g accentColors))).
Proof.
  unfold VisualGeneratorNode.drawOrganicFlows.
  pose proof (layerLoop_inside g accentColors
                (Z.to_nat (VisualGeneratorNode.numLayers g)) 0
                (VisualGeneratorNode.rng g) Hrng Hw Hh Hc) as H.
  destruct (VisualGeneratorNode.layerLoop g accentColors
              (Z.to_nat (VisualGeneratorNode.numLayers g)) 0 (VisualGeneratorNode.rng g)).
  exact H.
Qed.

Lemma shapes_inside_canvas_witness :
  let g := Sample.generator Sample.params in
  Forall (Observe.inside g)
    (omap Observe.placement (fst (VisualGeneratorNode.drawOrganicFlows g Sample.accents))).
Proof.
  intros g.
  apply (shapes_inside_canvas g Sample.accents).
  - vm_compute. split; [discriminate | reflexivity].
  - reflexivity.
  - reflexivity.
  - vm_compute. discriminate.
Defined.

(** ** The noise table and the noise function *)
Section Table.
Import PerlinNoise.

Lemma at_lookup {A} (arr : list A) k v :
  JS.at_ arr (Some k) = Some v -> 0 <= k /\ arr !! Z.to_nat k = Some v.
Proof.
  unfold JS.at_. destruct (Z.ltb_spec k 0) as [Hk|Hk]; [discriminate|].
  intros Hv. split; [lia|exact Hv].
Qed.

Lemma swap_Permutation (p p' : list Z) i j : swap p i j = Some p' -> p' ≡ₚ p.
Proof.
  unfold swap.
  destruct (JS.at_ p (Some j)) as [pj|] eqn:Ej; [|discriminate].
  destruct (JS.at_ p (Some i)) as [pi|] eqn:Ei; [|discriminate].
  intros [= <-].
  apply at_lookup in Ej as [_ Ej]. apply at_lookup in Ei as [_ Ei].
  now apply Permutation_insert_swap.
Qed.

(** The Fisher-Yates loop only ever exchanges entries. *)
Lemma shuffle_Permutation n : forall rng (p p' : list Z),
  shuffle n rng p = Some p' -> p' ≡ₚ p.
Proof.
  induction n as [|n IH]; intros rng p p'; cbn [shuffle].
  - now intros [= <-].
  - destruct (SeededRandom.random rng) as [r rng'].
    destruct (swap p _ _) as [q|] eqn:E; [|discriminate].
    intros H. rewrite (IH _ _ _ H). exact (swap_Permutation _ _ _ _ E).
Qed.

End Table.

(** X5: for every seed that is an unsigned 32-bit value, the noise table
    is built and its first 256 entries are a rearrangement of
    [0, 1, ..., 255] (each value exactly once); the last 256 entries repeat
    the first 256. *)
Theorem permutation_table (seed : Z) (Hseed : 0 <= seed < 4294967296) :
  exists n, PerlinNoise.new seed = Some n /\
    take 256 (PerlinNoise.permutation n) ≡ₚ List.map Z.of_nat (seq 0 256) /\
    drop 256 (PerlinNoise.permutation n) = take 256 (PerlinNoise.permutation n).
Proof.
  unfold PerlinNoise.new, PerlinNoise.generatePermutation.
  destruct (shuffle_some (fun _ => True) 255 (SeededRandom.new seed)
              (List.map Z.of_nat (seq 0 256)) (proj1 Hseed)) as (p & Hp & Hlen & _).
  - rewrite length_map, length_seq. lia.
  - apply Forall_forall. intros; exact I.
  - rewrite Hp. eexists. split; [reflexivity|].
    cbn [PerlinNoise.permutation].
    assert (Hl : length p = 256%nat)
      by (rewrite Hlen, length_map, length_seq; reflexivity).
    rewrite (take_app_length' p p 256), (drop_app_length' p p 256) by (symmetry; exact Hl).
    split; [exact (shuffle_Permutation _ _ _ _ Hp) | reflexivity].
Qed.

Lemma permutation_table_witness :
  exists n, PerlinNoise.new 42 = Some n /\
    take 256 (PerlinNoise.permutation n) ≡ₚ List.map Z.of_nat (seq 0 256).
Proof.
  destruct (permutation_table 42 ltac:(lia)) as (n & Hn & Hp & _).
  exists n. split; assumption.
Defined.

(** X6: for every metrics record whose seed is below 2^32, and any stroke
    bounds and canvas size, the constructor of the renderer succeeds: the
    seed derived from the metrics is not negative, so the shuffle never
    indexes outside the table; the generator and the noise field start from
    that same seed. *)
Theorem generator_construction_total (metrics : ContentAnalyzer.metrics)
    (lo hi : option Q) (width height : Z)
    (Hseed : SeedGenerator.generateSeed metrics < 4294967296) :
  let p := SeedGenerator.withStroke (SeedGenerator.generateVisualParams metrics) lo hi in
  0 <= SeedGenerator.seed p /\
  exists g, VisualGeneratorNode.new p width height = Some g /\
    VisualGeneratorNode.params g = p /\
    SeededRandom.current (VisualGeneratorNode.rng g) = SeedGenerator.seed p /\
    PerlinNoise.seed (VisualGeneratorNode.noise g) = SeedGenerator.seed p /\
    length (PerlinNoise.permutation (VisualGeneratorNode.noise g)) = 512%nat.
Proof.
  intros p.
  assert (Hs : 0 <= SeedGenerator.seed p) by apply Z.abs_nonneg.
  split; [exact Hs|].
  unfold VisualGeneratorNode.new, PerlinNoise.new.
  destruct (generatePermutation_some (SeedGenerator.seed p) Hs) as (t & -> & Hlen & _).
  eexists. repeat split. exact Hlen.
Qed.

Lemma generator_construction_total_witness :
  SeedGenerator.generateSeed Sample.metrics < 4294967296 /\
  exists g,
    VisualGeneratorNode.new
      (SeedGenerator.withStroke (SeedGenerator.generateVisualParams Sample.metrics)
         None None) 1200 1200 = Some g.
Proof.
  assert (Hseed : SeedGenerator.generateSeed Sample.metrics < 4294967296)
    by (vm_compute; reflexivity).
  split; [exact Hseed|].
  destruct (generator_construction_total Sample.metrics None None 1200 1200 Hseed)
    as (_ & g & Hg & _).
  exists g. exact Hg.
Defined.

Section NoiseValues.
Import PerlinNoise.
Local Open Scope Q_scope.

Lemma grad_compat hash a a' b b' :
  a == a' -> b == b' -> grad hash a b == grad hash a' b'.
Proof.
  intros Ha Hb. unfold grad.
  destruct (JS.band (default 0%Z hash) 3 <? 2)%Z;
    destruct (JS.band (JS.band (default 0%Z hash) 3) 1 =? 0)%Z;
    destruct (JS.band (JS.band (default 0%Z hash) 3) 2 =? 0)%Z;
    rewrite Ha, Hb; reflexivity.
Qed.

Lemma fade_compat t t' : t == t' -> fade t == fade t'.
Proof. intros H. unfold fade. now rewrite H. Qed.

Lemma lerp_compat a a' b b' t t' :
  a == a' -> b == b' -> t == t' -> lerp a b t == lerp a' b' t'.
Proof. intros Ha Hb Ht. unfold lerp. now rewrite Ha, Hb, Ht. Qed.

Lemma floor_unique q z :
  inject_Z z <= q -> q < inject_Z (z + 1) -> Qfloor q = z.
Proof.
  intros Hlo Hhi.
  pose proof (floor_ge z q Hlo).
  assert (Qfloor q < z + 1)%Z.
  { rewrite Zlt_Qlt. apply Qle_lt_trans with q; [apply Qfloor_le | assumption]. }
  lia.
Qed.

Lemma floor_shift q k : Qfloor (q + inject_Z k) = (Qfloor q + k)%Z.
Proof.
  pose proof (Qfloor_le q). pose proof (Qlt_floor q) as Hlt.
  apply floor_unique.
  - rewrite inject_Z_plus. lra.
  - rewrite !inject_Z_plus in *. lra.
Qed.

Lemma band_255_shift z : JS.band (z + 256) 255 = JS.band z 255.
Proof.
  unfold JS.band. change (JS.toInt32 255) with (Z.ones 8).
  rewrite !Z.land_ones by lia.
  destruct (toInt32_wrap (z + 256)) as [q1 ->].
  destruct (toInt32_wrap z) as [q2 ->].
  replace (z + 256 + q1 * 4294967296)%Z
    with (z + q2 * 4294967296 + (1 + (q1 - q2) * 16777216) * 2 ^ 8)%Z by ring.
  apply Z_mod_plus_full.
Qed.

Lemma get_compat n x x' y y' X Y :
  JS.band (Qfloor x) 255 = X -> JS.band (Qfloor x') 255 = X ->
  JS.band (Qfloor y) 255 = Y -> JS.band (Qfloor y') 255 = Y ->
  x - inject_Z (Qfloor x) == x' - inject_Z (Qfloor x') ->
  y - inject_Z (Qfloor y) == y' - inject_Z (Qfloor y') ->
  get n x y == get n x' y'.
Proof.
  intros HX HX' HY HY' Hx Hy. unfold get. cbv zeta.
  rewrite HX, HX', HY, HY'.
  set (fx := x - inject_Z (Qfloor x)) in *.
  set (fx' := x' - inject_Z (Qfloor x')) in *.
  set (fy := y - inject_Z (Qfloor y)) in *.
  set (fy' := y' - inject_Z (Qfloor y')) in *.
  assert (Hx1 : fx - 1 == fx' - 1) by (now rewrite Hx).
  assert (Hy1 : fy - 1 == fy' - 1) by (now rewrite Hy).
  apply Qdiv_comp; [|reflexivity].
  apply Qplus_comp; [|reflexivity].
  repeat first [ apply lerp_compat | apply grad_compat | apply fade_compat
               | assumption ].
Qed.

End NoiseValues.

(** X7: at integer coordinates the noise is exactly one half, whatever
    the table holds. *)
Theorem noise_lattice_half (n : PerlinNoise.t) (a b : Z) :
  (PerlinNoise.get n (inject_Z a) (inject_Z b) == 1 # 2)%Q.
Proof.
  unfold PerlinNoise.get. cbv zeta. rewrite !Qfloor_Z.
  assert (Ha : (inject_Z a - inject_Z a == 0)%Q) by ring.
  assert (Hb : (inject_Z b - inject_Z b == 0)%Q) by ring.
  set (fx := (inject_Z a - inject_Z a)%Q) in *.
  set (fy := (inject_Z b - inject_Z b)%Q) in *.
  match goal with
  | |- ((PerlinNoise.lerp (PerlinNoise.lerp ?g00 ?g10 _)
                          (PerlinNoise.lerp ?g01 ?g11 _) _ + 1) / 2 == _)%Q =>
      assert (H00 : (g00 == 0)%Q);
      [ pose proof (grad_bound
                      (JS.at_ (PerlinNoise.permutation n)
                         (PerlinNoise.plus
                            (JS.at_ (PerlinNoise.permutation n)
                               (Some (JS.band a 255))) (JS.band b 255)))
                      fx fy 0 0 ltac:(lra) ltac:(lra)); lra
      | generalize dependent g00; generalize g10, g01, g11 ]
  end.
  intros g10 g01 g11 g00 H00.
  unfold PerlinNoise.lerp.
  rewrite (fade_compat fx 0 Ha), (fade_compat fy 0 Hb), H00.
  unfold PerlinNoise.fade. field.
Qed.

(** X8: the noise repeats with period 256 along each axis. *)
Theorem noise_period_256 (n : PerlinNoise.t) (x y : Q) :
  (PerlinNoise.get n (x + 256) y == PerlinNoise.get n x y)%Q /\
  (PerlinNoise.get n x (y + 256) == PerlinNoise.get n x y)%Q.
Proof.
  assert (Hf : forall q : Q, Qfloor (q + 256) = Qfloor q + 256)
    by (intros q; exact (floor_shift q 256)).
  assert (Hfr : forall q : Q,
            (q + 256 - inject_Z (Qfloor (q + 256)) == q - inject_Z (Qfloor q))%Q).
  { intros q. rewrite Hf, inject_Z_plus. change (inject_Z 256) with 256%Q. ring. }
  split.
  - apply (get_compat n _ _ _ _ (JS.band (Qfloor x) 255) (JS.band (Qfloor y) 255));
      try reflexivity.
    + rewrite Hf. apply band_255_shift.
    + apply Hfr.
  - apply (get_compat n _ _ _ _ (JS.band (Qfloor x) 255) (JS.band (Qfloor y) 255));
      try reflexivity.
    + rewrite Hf. apply band_255_shift.
    + apply Hfr.
Qed.

(** ** Curves and rectangles *)
Section Curves.
Import VisualGeneratorNode.
Local Open Scope Q_scope.

Lemma imod_range a m : (0 <= a)%Z -> (0 < m)%Z -> (0 <= JS.imod a m < m)%Z.
Proof.
  intros Ha Hm. unfold JS.imod. rewrite Z.rem_mod_nonneg by lia.
  apply Z.mod_pos_bound. lia.
Qed.

Lemma inject_Z_range lo hi z :
  (lo <= z <= hi)%Z -> inject_Z lo <= inject_Z z <= inject_Z hi.
Proof. intros [H1 H2]. split; now rewrite <- Zle_Qle. Qed.

Lemma curvePoint_bounds g noiseScale offset i :
  (0 <= offset)%Z -> (0 <= width g)%Z -> (0 <= height g)%Z -> (0 <= i <= 50)%Z ->
  0 <= fst (curvePoint g noiseScale offset i) <= inject_Z (width g) /\
  0 <= snd (curvePoint g noiseScale offset i) <= inject_Z (height g) * (1 # 2).
Proof.
  intros Ho Hw Hh Hi. unfold curvePoint. cbv zeta. cbn [fst snd].
  pose proof (inject_Z_nonneg _ Hw) as HW. pose proof (inject_Z_nonneg _ Hh) as HH.
  set (W := inject_Z (width g)) in *. set (H := inject_Z (height g)) in *.
  pose proof (inject_Z_range 0 50 i Hi) as Ht.
  change (inject_Z 0) with 0 in Ht. change (inject_Z 50) with 50 in Ht.
  set (t := inject_Z i / 50).
  assert (Et : inject_Z i == 50 * t) by (unfold t; field).
  assert (Ht' : 0 <= t <= 1) by lra.
  match goal with
  | |- context [map ?nv 0 1 0 _] =>
      pose proof (get_unit (noise g) (t * 5 + inject_Z offset)
                    (inject_Z offset * noiseScale)) as Hn;
      set (v := nv) in *
  end.
  pose proof (inject_Z_range 0 4 (JS.imod offset 5)
                ltac:(pose proof (imod_range offset 5 Ho ltac:(lia)); lia)) as Hm.
  change (inject_Z 0) with 0 in Hm. change (inject_Z 4) with 4 in Hm.
  set (m := inject_Z (JS.imod offset 5)) in *.
  set (d := m / 5 * (1 # 2) + (1 # 10)).
  assert (Ed : 10 * d == m + 1) by (unfold d; field).
  assert (Hd : 0 <= d <= 1 # 2) by lra.
  assert (Ey : map v 0 1 0 (H * d) == H * d * v) by (unfold map; field).
  rewrite Ey.
  assert (0 <= t * W) by (apply Qmult_le_0_compat; lra).
  assert (0 <= (1 - t) * W) by (apply Qmult_le_0_compat; lra).
  assert (0 <= H * d) by (apply Qmult_le_0_compat; lra).
  assert (0 <= H * ((1 # 2) - d)) by (apply Qmult_le_0_compat; lra).
  assert (0 <= H * d * v) by (apply Qmult_le_0_compat; lra).
  assert (0 <= H * d * (1 - v)) by (apply Qmult_le_0_compat; lra).
  repeat split; lra.
Qed.

Lemma path_points (f : Z -> Q * Q) (l : list Z) (tl : list call) :
  Observe.points
    (List.map (fun i => let (x, y) := f i in if (i =? 0)%Z then MoveTo x y else LineTo x y) l
     ++ tl)
  = List.map f l ++ Observe.points tl.
Proof.
  induction l as [|i l IH]; [reflexivity|].
  cbn [List.map app]. unfold Observe.points in *. rewrite omap_step.
  destruct (f i) as [x y]. destruct (i =? 0)%Z; cbn; now rewrite IH.
Qed.

Lemma points_BeginPath (l : list call) :
  Observe.points (BeginPath :: l) = Observe.points l.
Proof. unfold Observe.points. now rewrite omap_step. Qed.

End Curves.

(** X9: a flowing curve is a path of 51 points that starts at the left
    edge, ends at the right edge and stays within the upper half of the
    canvas, for every non-negative curve offset. *)
Theorem flowing_curve_in_upper_half (g : VisualGeneratorNode.t)
    (noiseScale : Q) (offset : Z)
    (Hoffset : 0 <= offset)
    (Hw : 0 <= VisualGeneratorNode.width g) (Hh : 0 <= VisualGeneratorNode.height g) :
  let pts := Observe.points (VisualGeneratorNode.drawFlowingCurve g noiseScale offset) in
  length pts = 51%nat /\
  Forall (fun pt =>
            (0 <= fst pt <= inject_Z (VisualGeneratorNode.width g))%Q /\
            (0 <= snd pt <= inject_Z (VisualGeneratorNode.height g) * (1 # 2))%Q) pts /\
  (exists first, head pts = Some first /\ (fst first == 0)%Q) /\
  (exists final, last pts = Some final
                 /\ (fst final == inject_Z (VisualGeneratorNode.width g))%Q).
Proof.
  intros pts.
  assert (E : pts = List.map (VisualGeneratorNode.curvePoint g noiseScale offset)
                      (List.map Z.of_nat (seq 0 51))).
  { subst pts. unfold VisualGeneratorNode.drawFlowingCurve.
    rewrite points_BeginPath, path_points. apply app_nil_r. }
  rewrite E. split; [now rewrite !length_map, length_seq|].
  split.
  { apply Forall_map, Forall_map, Forall_forall. intros k Hk%elem_of_seq.
    apply curvePoint_bounds; try assumption. lia. }
  split.
  - eexists. split; [reflexivity|].
    unfold VisualGeneratorNode.curvePoint. cbn [fst]. change (inject_Z (Z.of_nat 0)) with 0%Q.
    field.
  - eexists. split; [reflexivity|].
    unfold VisualGeneratorNode.curvePoint. cbn [fst].
    change (inject_Z (Z.of_nat 50)) with 50%Q. field.
Qed.

Lemma flowing_curve_in_upper_half_witness :
  let g := Sample.generator Sample.params in
  length (Observe.points
            (VisualGeneratorNode.drawFlowingCurve g (VisualGeneratorNode.noiseScale g) 12))
  = 51%nat.
Proof.
  intros g.
  exact (proj1 (flowing_curve_in_upper_half g (VisualGeneratorNode.noiseScale g) 12
                  ltac:(lia) ltac:(vm_compute; discriminate) ltac:(vm_compute; discriminate))).
Defined.

(** X10: a rotated rectangle is filled centred on the origin of the
    translated context, inside a balanced [save]/[restore] pair, and for a
    non-negative size and offset each of its sides is between 0.8 and 1.25
    times the size. *)
Theorem rectangle_sides (x y size : Q) (offset : Z)
    (Hsize : (0 <= size)%Q) (Hoffset : 0 <= offset) :
  exists w h,
    VisualGeneratorNode.drawRectangle x y size offset
    = [ VisualGeneratorNode.Save;
        VisualGeneratorNode.Translate x y;
        VisualGeneratorNode.Rotate (inject_Z offset * (1 # 10))%Q;
        VisualGeneratorNode.FillRect (- w / 2)%Q (- h / 2)%Q w h;
        VisualGeneratorNode.Restore ] /\
    ((8 # 10) * size <= w <= (125 # 100) * size)%Q /\
    ((8 # 10) * size <= h <= (125 # 100) * size)%Q.
Proof.
  unfold VisualGeneratorNode.drawRectangle. cbv zeta.
  eexists. eexists. split; [reflexivity|].
  assert (Hside : forall k : Z, (0 <= k <= 9)%Z ->
            ((8 # 10) * size <= size * ((8 # 10) + inject_Z k / 20)
             <= (125 # 100) * size)%Q).
  { intros k Hk. pose proof (inject_Z_range 0 9 k Hk) as Hq.
    change (inject_Z 0) with 0%Q in Hq. change (inject_Z 9) with 9%Q in Hq.
    set (q := inject_Z k) in *.
    assert (E : (size * ((8 # 10) + q / 20) == (8 # 10) * size + size * q / 20)%Q) by field.
    rewrite E.
    assert (0 <= size * q)%Q by (apply Qmult_le_0_compat; lra).
    assert (0 <= size * (9 - q))%Q by (apply Qmult_le_0_compat; lra).
    assert (E2 : (size * q / 20 == (size * q) * (1 # 20))%Q) by field.
    rewrite E2. split; lra. }
  split; apply Hside.
  - pose proof (imod_range offset 10 Hoffset ltac:(lia)). lia.
  - pose proof (imod_range (offset * 3) 10 ltac:(lia) ltac:(lia)). lia.
Qed.

Lemma rectangle_sides_witness :
  exists w h,
    VisualGeneratorNode.drawRectangle 600 300 100 207
    = [ VisualGeneratorNode.Save;
        VisualGeneratorNode.Translate 600 300;
        VisualGeneratorNode.Rotate (inject_Z 207 * (1 # 10))%Q;
        VisualGeneratorNode.FillRect (- w / 2)%Q (- h / 2)%Q w h;
        VisualGeneratorNode.Restore ] /\
    ((8 # 10) * 100 <= w <= (125 # 100) * 100)%Q.
Proof.
  destruct (rectangle_sides 600 300 100 207 ltac:(discriminate) ltac:(lia))
    as (w & h & E & Hw & _).
  exists w, h. split; assumption.
Defined.

(** ** Colours *)
Section Colours.
Import VisualGeneratorNode.

Lemma colorAt_some (accentColors : list string) k :
  accentColors <> [] -> 0 <= k -> is_Some (colorAt accentColors k).
Proof.
  intros Hne Hk. unfold colorAt.
  destruct accentColors as [|c0 rest] eqn:E; [congruence|]. rewrite <- E.
  assert (Hlen : 0 < Z.of_nat (length accentColors)) by (subst; cbn [length]; lia).
  pose proof (imod_range k _ Hk Hlen).
  apply lookup_lt_is_Some. lia.
Qed.

Lemma colours_step c l :
  Observe.colours (c :: l)
  = match c with
    | FillStyle color | StrokeStyle color => color :: Observe.colours l
    | _ => Observe.colours l
    end.
Proof. unfold Observe.colours. rewrite omap_step. now destruct c. Qed.

Lemma drawShape_colours g x y size offset l :
  Observe.colours (drawShape g x y size offset :: l) = Observe.colours l.
Proof.
  rewrite colours_step. unfold drawShape.
  repeat match goal with
         | |- context [if ?b then _ else _] => destruct b
         end; reflexivity.
Qed.

Lemma flowLoop_colours g accentColors layer n : forall flow rng,
  accentColors <> [] -> 0 <= flow ->
  Forall is_Some (Observe.colours (fst (flowLoop g accentColors layer n flow rng))).
Proof.
  induction n as [|n IH]; intros flow rng Hne Hf; [constructor|].
  rewrite flowLoop_S. cbv zeta. cbn [fst].
  rewrite colours_step, drawShape_colours.
  constructor; [now apply colorAt_some | apply IH; [assumption | lia]].
Qed.

Lemma layerLoop_colours g accentColors n : forall layer rng,
  accentColors <> [] ->
  Forall is_Some (Observe.colours (fst (layerLoop g accentColors n layer rng))).
Proof.
  induction n as [|n IH]; intros layer rng Hne; [constructor|].
  rewrite layerLoop_S. cbv zeta. cbn [fst].
  unfold Observe.colours in *. rewrite !omap_app.
  apply Forall_app; split; [apply flowLoop_colours; [assumption | lia]|].
  apply Forall_app; split; [|now apply IH].
  cbn. repeat constructor; apply colorAt_some; (assumption || lia).
Qed.

End Colours.

(** X11: with the accent colours of any palette of the table, every fill
    and stroke colour that [drawOrganicFlows] sets is a colour of the
    palette (never [undefined]); every palette has exactly three accent
    colours, and both stops of the background gradient are defined. *)
Theorem palette_colours_defined (g : VisualGeneratorNode.t)
    (pal : VisualGeneratorNode.palette)
    (Hpal : In pal VisualGeneratorNode.initColorPalettes) :
  length (VisualGeneratorNode.accents pal) = 3%nat /\
  is_Some (fst (VisualGeneratorNode.gradientStops (VisualGeneratorNode.bg pal))) /\
  is_Some (snd (VisualGeneratorNode.gradientStops (VisualGeneratorNode.bg pal))) /\
  Forall is_Some
    (Observe.colours
       (fst (VisualGeneratorNode.drawOrganicFlows g (VisualGeneratorNode.accents pal)))).
Proof.
  assert (Htable : Forall (fun pal =>
            length (VisualGeneratorNode.accents pal) = 3%nat /\
            is_Some (fst (VisualGeneratorNode.gradientStops (VisualGeneratorNode.bg pal))) /\
            is_Some (snd (VisualGeneratorNode.gradientStops (VisualGeneratorNode.bg pal))))
          VisualGeneratorNode.initColorPalettes).
  { repeat constructor; eexists; reflexivity. }
  rewrite Forall_forall in Htable.
  destruct (Htable pal ltac:(now apply list_elem_of_In)) as (H3 & Hb0 & Hb1).
  repeat split; try assumption.
  unfold VisualGeneratorNode.drawOrganicFlows.
  pose proof (layerLoop_colours g (VisualGeneratorNode.accents pal)
                (Z.to_nat (VisualGeneratorNode.numLayers g)) 0
                (VisualGeneratorNode.rng g)) as H.
  destruct (VisualGeneratorNode.layerLoop g (VisualGeneratorNode.accents pal)
              (Z.to_nat (VisualGeneratorNode.numLayers g)) 0 (VisualGeneratorNode.rng g)).
  apply H. intros E. rewrite E in H3. discriminate.
Qed.

Lemma palette_colours_defined_witness :
  Forall is_Some
    (Observe.colours
       (fst (VisualGeneratorNode.drawOrganicFlows (Sample.generator Sample.params)
               ["#74EBD5"; "#ACB6E5"; "#86A8E7"]%string))).
Proof.
  refine (proj2 (proj2 (proj2
    (palette_colours_defined (Sample.generator Sample.params)
       {| VisualGeneratorNode.bg := ["#00B4DB"; "#0083B0"]%string;
          VisualGeneratorNode.accents := ["#74EBD5"; "#ACB6E5"; "#86A8E7"]%string |}
       _)))).
  cbn. do 9 right. left. reflexivity.
Defined.

(** ** Cropping *)
Section CropRect.
Import Canvas.

Lemma overlay_take {A} (x : A) n : forall top : list A,
  (n <= length top)%nat -> overlay n top (repeat x n) = take n top.
Proof.
  induction n as [|n IH]; intros [|t ts] Hn; simpl in *; try reflexivity; [lia|].
  f_equal. apply IH. lia.
Qed.

Lemma overlayRows_take {A} (x : A) w h : forall top : list (list A),
  (h <= length top)%nat -> Forall (fun row => (w <= length row)%nat) top ->
  overlayRows h w top (repeat (repeat x w) h) = List.map (take w) (take h top).
Proof.
  induction h as [|h IH]; intros [|t ts] Hh Hrows; simpl in *; try reflexivity; [lia|].
  inversion Hrows; subst. f_equal.
  - now apply overlay_take.
  - apply IH; [lia | assumption].
Qed.

Lemma wf_intro c :
  length (pixels c) = height c ->
  Forall (fun row => length row = width c) (pixels c) ->
  wf c = true.
Proof.
  intros Hh Hw. unfold wf. apply andb_true_intro. split.
  - now apply Nat.eqb_eq.
  - apply forallb_forall. intros row Hin. apply Nat.eqb_eq.
    rewrite Forall_forall in Hw. apply Hw. now apply list_elem_of_In.
Qed.

(** The canvas holding the top-left [w] by [h] rectangle of [c]. *)
Lemma crop_rect c w h :
  wf c = true -> (w <= width c)%nat -> (h <= height c)%nat ->
  drawImage (createCanvas w h) c w h
  = {| width := w; height := h; pixels := List.map (take w) (take h (pixels c)) |}
  /\ wf (drawImage (createCanvas w h) c w h) = true.
Proof.
  intros [Hh Hw]%wf_spec Hlw Hlh.
  assert (E : drawImage (createCanvas w h) c w h
              = {| width := w; height := h;
                   pixels := List.map (take w) (take h (pixels c)) |}).
  { unfold drawImage, createCanvas. cbn [width height pixels]. f_equal.
    apply overlayRows_take; [lia|].
    eapply Forall_impl; [exact Hw|]. cbv beta. intros row ->. exact Hlw. }
  split; [exact E|]. rewrite E. apply wf_intro; cbn [width height pixels].
  - rewrite length_map, length_take. lia.
  - apply Forall_map, Forall_take.
    eapply Forall_impl; [exact Hw|]. cbv beta. intros row Hrow.
    rewrite length_take, Hrow. lia.
Qed.

End CropRect.

Section CropPixels.
Import Canvas.

Lemma lookup_map {A B} (f : A -> B) (l : list A) i :
  List.map f l !! i = f <$> (l !! i).
Proof.
  revert i. induction l as [|a l IH]; intros [|i]; try reflexivity. apply IH.
Qed.

Lemma crop_pixel c w h x y :
  (x < w)%nat -> (y < h)%nat ->
  Observe.pixel {| width := w; height := h;
                   pixels := List.map (take w) (take h (pixels c)) |} x y
  = Observe.pixel c x y.
Proof.
  intros Hx Hy. unfold Observe.pixel. cbn [pixels].
  rewrite lookup_map, lookup_take_lt by assumption.
  destruct (pixels c !! y) as [row|]; [|reflexivity].
  cbn. now apply lookup_take_lt.
Qed.

End CropPixels.

(** X12: in direct crop mode, for a target no larger than the master,
    the derived canvas has the target size and holds exactly the top-left
    rectangle of the master: pixel [(x, y)] of the result is pixel [(x, y)]
    of the master.  The command-line generator and the web application
    agree. *)
Theorem direct_crop_top_left
    (resizeAndCrop : Canvas.t -> Canvas.t -> nat -> nat -> Canvas.t)
    (cfg : ImageGenerator.config) (master : Canvas.t)
    (targetWidth targetHeight x y : nat)
    (Hmode : ImageGenerator.cropMode cfg = "direct"%string)
    (Hwf : Canvas.wf master = true)
    (Hw : (targetWidth <= Canvas.width master)%nat)
    (Hh : (targetHeight <= Canvas.height master)%nat)
    (Hx : (x < targetWidth)%nat) (Hy : (y < targetHeight)%nat) :
  let r := ImageGenerator.applyCropMode resizeAndCrop cfg master targetWidth targetHeight in
  Canvas.width r = targetWidth /\ Canvas.height r = targetHeight /\
  Canvas.wf r = true /\
  Canvas.pixels r = List.map (take targetWidth) (take targetHeight (Canvas.pixels master)) /\
  Observe.pixel r x y = Observe.pixel master x y /\
  ImageGenerator.createCroppedCanvas resizeAndCrop master targetWidth targetHeight "direct"
  = r.
Proof.
  intros r. subst r.
  unfold ImageGenerator.applyCropMode, ImageGenerator.createCroppedCanvas.
  rewrite Hmode. cbn [String.eqb Ascii.eqb Bool.eqb].
  destruct (crop_rect master targetWidth targetHeight Hwf Hw Hh) as [E Hwf'].
  rewrite Hwf', E. cbn [Canvas.width Canvas.height Canvas.pixels].
  repeat split. now apply crop_pixel.
Qed.

Lemma direct_crop_top_left_witness :
  Canvas.height
    (ImageGenerator.applyCropMode (fun dst _ _ _ => dst) Sample.config Sample.master
       1200 628) = 628%nat.
Proof.
  assert (Hwf : Canvas.wf Sample.master = true) by (vm_compute; reflexivity).
  assert (Hw : (1200 <= Canvas.width Sample.master)%nat) by (cbn; lia).
  assert (Hh : (628 <= Canvas.height Sample.master)%nat) by (cbn; lia).
  exact (proj1 (proj2 (direct_crop_top_left (fun dst _ _ _ => dst) Sample.config
                         Sample.master 1200 628 0 0 eq_refl Hwf Hw Hh
                         ltac:(lia) ltac:(lia)))).
Defined.

(** X13: direct crops compose: cropping a direct crop again gives the
    direct crop of the master to the smaller target. *)
Theorem direct_crop_compose
    (resizeAndCrop : Canvas.t -> Canvas.t -> nat -> nat -> Canvas.t)
    (cfg : ImageGenerator.config) (master : Canvas.t) (w1 h1 w2 h2 : nat)
    (Hmode : ImageGenerator.cropMode cfg = "direct"%string)
    (Hwf : Canvas.wf master = true)
    (Hw1 : (w1 <= Canvas.width master)%nat) (Hh1 : (h1 <= Canvas.height master)%nat)
    (Hw2 : (w2 <= w1)%nat) (Hh2 : (h2 <= h1)%nat) :
  ImageGenerator.applyCropMode resizeAndCrop cfg
    (ImageGenerator.applyCropMode resizeAndCrop cfg master w1 h1) w2 h2
  = ImageGenerator.applyCropMode resizeAndCrop cfg master w2 h2.
Proof.
  unfold ImageGenerator.applyCropMode.
  rewrite Hmode. cbn [String.eqb Ascii.eqb Bool.eqb].
  destruct (crop_rect master w1 h1 Hwf Hw1 Hh1) as [E1 Hwf1].
  destruct (crop_rect master w2 h2 Hwf ltac:(lia) ltac:(lia)) as [E2 _].
  destruct (crop_rect _ w2 h2 Hwf1) as [E3 _].
  - rewrite E1. cbn [Canvas.width]. exact Hw2.
  - rewrite E1. cbn [Canvas.height]. exact Hh2.
  - rewrite E3, E2, E1. cbn [Canvas.pixels]. f_equal.
    rewrite firstn_map, take_take, Nat.min_l by exact Hh2.
    rewrite map_map. apply map_ext. intros row.
    rewrite take_take, Nat.min_l by exact Hw2. reflexivity.
Qed.

Lemma direct_crop_compose_witness :
  ImageGenerator.applyCropMode (fun dst _ _ _ => dst) Sample.config
    (ImageGenerator.applyCropMode (fun dst _ _ _ => dst) Sample.config Sample.master
       1200 628) 600 314
  = ImageGenerator.applyCropMode (fun dst _ _ _ => dst) Sample.config Sample.master
      600 314.
Proof.
  assert (Hwf : Canvas.wf Sample.master = true) by (vm_compute; reflexivity).
  assert (Hw : (1200 <= Canvas.width Sample.master)%nat) by (cbn; lia).
  assert (Hh : (628 <= Canvas.height Sample.master)%nat) by (cbn; lia).
  exact (direct_crop_compose (fun dst _ _ _ => dst) Sample.config Sample.master
           1200 628 600 314 eq_refl Hwf Hw Hh ltac:(lia) ltac:(lia)).
Defined.

(** ** Cover-fit geometry *)
Section Cover.
Local Open Scope Q_scope.

Lemma ratio_mul a b : 0 < b -> a / b * b == a.
Proof. intros Hb. field. lra. Qed.

Lemma mul_pos_le a b c : 0 < c -> a * c <= b * c -> a <= b.
Proof.
  intros Hc H. destruct (Qlt_le_dec b a) as [Hlt|Hle]; [|exact Hle].
  assert (b * c < a * c) by (apply Qmult_lt_compat_r; assumption). lra.
Qed.

End Cover.

(** X14: for positive source and target sizes, the scaled image computed
    by [resizeAndCrop] keeps the aspect ratio of the source, matches the
    target in one direction and covers it in the other, and the cropped
    rectangle is centred: its offsets are not negative and leave equal
    margins on both sides. *)
Theorem resize_geometry_covers (sourceWidth sourceHeight targetWidth targetHeight : Q)
    (Hsw : (0 < sourceWidth)%Q) (Hsh : (0 < sourceHeight)%Q)
    (Htw : (0 < targetWidth)%Q) (Hth : (0 < targetHeight)%Q) :
  let geo := ImageGenerator.resizeGeometry sourceWidth sourceHeight
               targetWidth targetHeight in
  (ImageGenerator.scaleWidth geo * sourceHeight
   == ImageGenerator.scaleHeight geo * sourceWidth)%Q /\
  (targetWidth <= ImageGenerator.scaleWidth geo)%Q /\
  (targetHeight <= ImageGenerator.scaleHeight geo)%Q /\
  (ImageGenerator.scaleWidth geo == targetWidth
   \/ ImageGenerator.scaleHeight geo == targetHeight)%Q /\
  (0 <= ImageGenerator.sourceX geo)%Q /\ (0 <= ImageGenerator.sourceY geo)%Q /\
  (ImageGenerator.sourceX geo + targetWidth + ImageGenerator.sourceX geo
   == ImageGenerator.scaleWidth geo)%Q /\
  (ImageGenerator.sourceY geo + targetHeight + ImageGenerator.sourceY geo
   == ImageGenerator.scaleHeight geo)%Q.
Proof.
  intros geo. subst geo. unfold ImageGenerator.resizeGeometry. cbv zeta.
  destruct (JS.ltb (targetWidth / targetHeight) (sourceWidth / sourceHeight)) eqn:E.
  - apply ltb_lt in E.
    cbn [ImageGenerator.scaleWidth ImageGenerator.scaleHeight
         ImageGenerator.sourceX ImageGenerator.sourceY].
    assert (Hcover : (targetWidth <= sourceWidth * (targetHeight / sourceHeight))%Q).
    { apply mul_pos_le with (c := (sourceHeight / targetHeight)%Q).
      - apply Qlt_shift_div_l; lra.
      - assert (E1 : (sourceWidth * (targetHeight / sourceHeight)
                      * (sourceHeight / targetHeight) == sourceWidth)%Q)
          by (field; split; lra).
        rewrite E1.
        assert (E2 : (targetWidth * (sourceHeight / targetHeight)
                      == targetWidth / targetHeight * sourceHeight)%Q)
          by (field; lra).
        rewrite E2.
        assert (Hlt : (targetWidth / targetHeight * sourceHeight
                       < sourceWidth / sourceHeight * sourceHeight)%Q)
          by (apply Qmult_lt_compat_r; assumption).
        rewrite ratio_mul in Hlt by assumption. lra. }
    split; [field; lra|].
    split; [exact Hcover|]. split; [apply Qle_refl|].
    split; [right; reflexivity|].
    split; [apply Qle_shift_div_l; lra|]. split; [apply Qle_refl|].
    split; field; lra.
  - apply ltb_ge in E.
    cbn [ImageGenerator.scaleWidth ImageGenerator.scaleHeight
         ImageGenerator.sourceX ImageGenerator.sourceY].
    assert (Hcover : (targetHeight <= sourceHeight * (targetWidth / sourceWidth))%Q).
    { apply mul_pos_le with (c := (sourceWidth / (targetHeight * sourceHeight))%Q).
      - apply Qlt_shift_div_l; [|lra].
        apply Qmult_lt_0_compat; assumption.
      - assert (E1 : (targetHeight * (sourceWidth / (targetHeight * sourceHeight))
                      == sourceWidth / sourceHeight)%Q)
          by (field; split; lra).
        assert (E2 : (sourceHeight * (targetWidth / sourceWidth)
                      * (sourceWidth / (targetHeight * sourceHeight))
                      == targetWidth / targetHeight)%Q)
          by (field; repeat split; lra).
        rewrite E1, E2. exact E. }
    split; [field; lra|].
    split; [apply Qle_refl|]. split; [exact Hcover|].
    split; [left; reflexivity|].
    split; [apply Qle_refl|]. split; [apply Qle_shift_div_l; lra|].
    split; field; lra.
Qed.

Lemma resize_geometry_covers_witness :
  let geo := ImageGenerator.resizeGeometry 1200 1200 1200 628 in
  (628 <= ImageGenerator.scaleHeight geo)%Q /\ (0 <= ImageGenerator.sourceY geo)%Q.
Proof.
  intros geo.
  pose proof (resize_geometry_covers 1200 1200 1200 628
                ltac:(reflexivity) ltac:(reflexivity) ltac:(reflexivity)
                ltac:(reflexivity)) as H.
  exact (conj (proj1 (proj2 (proj2 H)))
              (proj1 (proj2 (proj2 (proj2 (proj2 (proj2 H))))))).
Defined.

(** ** The noise texture *)
Section Texture.
Import VisualGeneratorNode.
Local Open Scope Q_scope.

Lemma toUint8Clamp_between x lo hi :
  (0 <= lo)%Z -> (hi <= 255)%Z -> inject_Z lo <= x <= inject_Z hi ->
  (lo <= JS.toUint8Clamp x <= hi)%Z.
Proof.
  intros Hlo Hhi [Hx1 Hx2].
  assert (Hlh : (lo <= hi)%Z) by (rewrite Zle_Qle; lra).
  unfold JS.toUint8Clamp.
  destruct (Qle_bool x 0) eqn:E0.
  { apply Qle_bool_iff in E0.
    assert (inject_Z lo <= inject_Z 0) by (change (inject_Z 0) with 0; lra).
    rewrite <- Zle_Qle in *. lia. }
  destruct (Qle_bool 255 x) eqn:E255.
  { apply Qle_bool_iff in E255.
    assert (inject_Z 255 <= inject_Z hi) by (change (inject_Z 255) with 255; lra).
    rewrite <- Zle_Qle in *. lia. }
  pose proof (floor_ge lo x Hx1) as Hf1.
  pose proof (floor_le hi x Hx2) as Hf2.
  pose proof (Qfloor_le x) as Hfx.
  assert (Hup : inject_Z (Qfloor x) < x -> (Qfloor x + 1 <= hi)%Z).
  { intros Hlt.
    assert (inject_Z (Qfloor x) < inject_Z hi) by lra.
    rewrite <- Zlt_Qlt in *. lia. }
  destruct (JS.ltb (inject_Z (Qfloor x) + (1 # 2)) x) eqn:E1.
  { apply ltb_lt in E1. assert (inject_Z (Qfloor x) < x) by lra. specialize (Hup H). lia. }
  apply ltb_ge in E1.
  destruct (JS.ltb x (inject_Z (Qfloor x) + (1 # 2))) eqn:E2; [lia|].
  apply ltb_ge in E2.
  destruct (Z.even (Qfloor x)); [lia|].
  assert (inject_Z (Qfloor x) < x) by lra. specialize (Hup H). lia.
Qed.

Lemma constrain_byte x : 0 <= constrain x 0 255 <= 255.
Proof.
  unfold constrain, JS.min, JS.max.
  destruct (Qle_bool x 0) eqn:E0.
  - destruct (Qle_bool 0 255) eqn:E; [lra | discriminate].
  - destruct (Qle_bool x 255) eqn:E1.
    + apply Qle_bool_iff in E1.
      destruct (Qlt_le_dec x 0) as [Hn|Hn]; [|lra].
      assert (Hle : x <= 0) by lra. apply Qle_bool_iff in Hle. congruence.
    + lra.
Qed.

Lemma constrain_near v x :
  0 <= v <= 255 -> v - 5 <= x <= v + 5 ->
  v - 5 <= constrain x 0 255 <= v + 5.
Proof.
  intros Hv Hx. unfold constrain, JS.min, JS.max.
  destruct (Qle_bool x 0) eqn:E0.
  - apply Qle_bool_iff in E0.
    destruct (Qle_bool 0 255) eqn:E; [lra | discriminate].
  - destruct (Qle_bool x 255) eqn:E1; [lra|].
    destruct (Qlt_le_dec 255 x) as [Hn|Hn]; [lra|].
    apply Qle_bool_iff in Hn. congruence.
Qed.

Lemma inject_Z_sub a b : inject_Z (a - b) == inject_Z a - inject_Z b.
Proof. unfold Z.sub. rewrite inject_Z_plus, inject_Z_opp. ring. Qed.

(** One store of the overlay keeps the channel a byte and moves it by at
    most 5. *)
Lemma store_near (v : Z) noiseVal :
  (0 <= v <= 255)%Z -> 0 <= noiseVal <= 10 ->
  let v' := JS.toUint8Clamp (constrain (inject_Z v + noiseVal - 5) 0 255) in
  (0 <= v' <= 255)%Z /\ (v - 5 <= v' <= v + 5)%Z.
Proof.
  intros Hv Hn v'.
  pose proof (inject_Z_range 0 255 v Hv) as Hq.
  change (inject_Z 0) with 0 in Hq. change (inject_Z 255) with 255 in Hq.
  pose proof (constrain_near (inject_Z v) (inject_Z v + noiseVal - 5) Hq ltac:(lra)) as Hc.
  assert (Hbounds : (Z.max 0 (v - 5) <= v' <= Z.min 255 (v + 5))%Z).
  { apply toUint8Clamp_between; [lia | lia |].
    pose proof (constrain_byte (inject_Z v + noiseVal - 5)) as Hb.
    split.
    - destruct (Z.max_spec 0 (v - 5)) as [[_ ->]|[_ ->]].
      + rewrite inject_Z_sub. change (inject_Z 5) with 5. lra.
      + change (inject_Z 0) with 0. lra.
    - destruct (Z.min_spec 255 (v + 5)) as [[_ ->]|[_ ->]].
      + change (inject_Z 255) with 255. lra.
      + rewrite inject_Z_plus. change (inject_Z 5) with 5. lra. }
  lia.
Qed.

Lemma toUint8Clamp_byte x : (0 <= JS.toUint8Clamp x <= 255)%Z.
Proof.
  unfold JS.toUint8Clamp.
  destruct (Qle_bool x 0) eqn:E0; [lia|].
  destruct (Qle_bool 255 x) eqn:E255; [lia|].
  assert (H0 : 0 < x).
  { destruct (Qlt_le_dec 0 x) as [H|H]; [exact H|].
    apply Qle_bool_iff in H. congruence. }
  assert (H255 : x < 255).
  { destruct (Qlt_le_dec x 255) as [H|H]; [exact H|].
    apply Qle_bool_iff in H. congruence. }
  pose proof (floor_ge 0 x ltac:(change (inject_Z 0) with 0; lra)).
  assert (Qfloor x < 255)%Z.
  { rewrite Zlt_Qlt. apply Qle_lt_trans with x; [apply Qfloor_le|].
    change (inject_Z 255) with 255. exact H255. }
  repeat match goal with
         | |- context [if ?b then _ else _] => destruct b
         end; lia.
Qed.

End Texture.

Section TextureArray.
Import VisualGeneratorNode.

Lemma setChannel_length pixels k noiseVal :
  length (setChannel pixels k noiseVal) = length pixels.
Proof.
  unfold setChannel. destruct (JS.at_ pixels (Some k)); [apply length_insert|reflexivity].
Qed.

Lemma setChannel_lookup pixels k noiseVal j :
  0 <= k ->
  setChannel pixels k noiseVal !! j
  = if Nat.eqb j (Z.to_nat k) then Observe.stored noiseVal <$> pixels !! j
    else pixels !! j.
Proof.
  intros Hk. unfold setChannel, JS.at_.
  destruct (Z.ltb_spec k 0) as [?|_]; [lia|].
  destruct (Nat.eqb_spec j (Z.to_nat k)) as [->|Hne].
  - destruct (pixels !! Z.to_nat k) as [v|] eqn:E.
    + rewrite list_lookup_insert_eq by (eapply lookup_lt_Some; exact E). reflexivity.
    + now rewrite E.
  - destruct (pixels !! Z.to_nat k) as [v|] eqn:E; [|reflexivity].
    apply list_lookup_insert_ne. congruence.
Qed.

(** One iteration of the loops rewrites the three colour channels of
    pixel [(i, j)] and nothing else. *)
Lemma texturePixel_spec g pixels i j :
  0 <= (j * width g + i) * 4 ->
  let n := Z.to_nat ((j * width g + i) * 4) in
  let noiseVal :=
    (PerlinNoise.get (noise g) (inject_Z i * (1 # 100)) (inject_Z j * (1 # 100)) * 10)%Q in
  length (texturePixel g pixels i j) = length pixels /\
  forall k,
    texturePixel g pixels i j !! k
    = if Nat.eqb k n || Nat.eqb k (n + 1) || Nat.eqb k (n + 2)
      then Observe.stored noiseVal <$> pixels !! k
      else pixels !! k.
Proof.
  intros Hidx n noiseVal. unfold texturePixel. cbv zeta. fold noiseVal.
  set (idx := (j * width g + i) * 4) in *.
  destruct (Z.ltb_spec idx (Z.of_nat (length pixels))) as [Hlt|Hge].
  - split; [now rewrite !setChannel_length|].
    intros k. rewrite !setChannel_lookup by lia.
    replace (Z.to_nat (idx + 1)) with (n + 1)%nat by (subst n; lia).
    replace (Z.to_nat (idx + 2)) with (n + 2)%nat by (subst n; lia).
    fold n.
    destruct (Nat.eqb_spec k n) as [E0|H0];
      destruct (Nat.eqb_spec k (n + 1)) as [E1|H1];
      destruct (Nat.eqb_spec k (n + 2)) as [E2|H2];
      try lia; reflexivity.
  - split; [reflexivity|]. intros k.
    destruct (Nat.eqb k n || Nat.eqb k (n + 1) || Nat.eqb k (n + 2)) eqn:E;
      [|reflexivity].
    assert (Hk : (length pixels <= k)%nat).
    { apply orb_true_iff in E as [E|E]; [apply orb_true_iff in E as [E|E]|];
        apply Nat.eqb_eq in E; subst n; lia. }
    apply lookup_ge_None in Hk. now rewrite Hk.
Qed.

(** A fold over a duplicate-free list, with the elements already
    processed as a parameter of the invariant. *)
Lemma fold_left_done {A B} (f : A -> B -> A) (P : B -> Prop)
    (Inv : list B -> A -> Prop) (l : list B) :
  (forall done x a, ~ In x done -> P x -> Inv done a -> Inv (x :: done) (f a x)) ->
  NoDup l -> Forall P l ->
  forall done a, (forall x, In x done -> ~ In x l) -> Inv done a ->
  exists done', (forall x, In x done' <-> In x done \/ In x l)
                /\ Inv done' (fold_left f l a).
Proof.
  intros Hstep. induction l as [|x l IH]; intros Hnd HP done a Hdis Hinv.
  - exists done. split; [intros y; cbn; tauto | exact Hinv].
  - inversion Hnd as [|? ? Hx Hnd']; subst.
    inversion HP as [|? ? HPx HPl]; subst.
    destruct (IH Hnd' HPl (x :: done) (f a x)) as (done' & Hmem & Hinv').
    + intros y [<-|Hy]; [intros Hin; apply Hx; now apply list_elem_of_In|].
      intros Hin. apply (Hdis y Hy). now right.
    + apply Hstep; [|assumption..].
      intros Hin. apply (Hdis x Hin). now left.
    + exists done'. split; [|exact Hinv'].
      intros y. rewrite Hmem. cbn. tauto.
Qed.

Lemma NoDup_map_inj {A B} (f : A -> B) (l : list A) :
  (forall x y, In x l -> In y l -> f x = f y -> x = y) ->
  NoDup l -> NoDup (List.map f l).
Proof.
  induction l as [|a l IH]; intros Hinj Hnd; cbn; [constructor|].
  inversion Hnd as [|? ? Ha Hl]; subst.
  constructor.
  - rewrite list_elem_of_In, in_map_iff. intros (y & Hy & Hin).
    apply Ha. apply list_elem_of_In.
    rewrite (Hinj a y (or_introl eq_refl) (or_intror Hin) (eq_sym Hy)). exact Hin.
  - apply IH; [|exact Hl]. intros x y Hx Hy. apply Hinj; now right.
Qed.

Lemma stride2_spec n i : In i (stride2 n) <-> 0 <= i < n /\ Z.even i = true.
Proof.
  unfold stride2. rewrite in_map_iff.
  pose proof (Z.div_mod (n + 1) 2 ltac:(lia)) as Hdm.
  pose proof (Z.mod_pos_bound (n + 1) 2 ltac:(lia)) as Hr.
  split.
  - intros (k & <- & Hk). apply list_elem_of_In, elem_of_seq in Hk.
    split; [lia|]. now rewrite Z.even_mul.
  - intros [Hi He]. apply Z.even_spec in He as [m Hm].
    exists (Z.to_nat m). split; [lia|].
    apply list_elem_of_In, elem_of_seq. lia.
Qed.

Lemma stride2_NoDup n : NoDup (stride2 n).
Proof.
  unfold stride2. apply NoDup_map_inj; [|apply NoDup_seq].
  intros x y _ _ H. lia.
Qed.

End TextureArray.

Section TextureInvariant.
Import VisualGeneratorNode.
Variable g : t.
Variable p0 : list Z.
Hypothesis Hbytes : Forall (fun b => 0 <= b <= 255) p0.

Lemma retouched_weaken (U U' : nat -> Prop) q :
  (forall k, U' k -> U k) -> Observe.retouched p0 U q -> Observe.retouched p0 U' q.
Proof.
  intros HU [Hlen Hpos]. split; [exact Hlen|].
  intros k v Hk. destruct (Hpos k v Hk) as (v' & H1 & H2 & H3 & H4).
  exists v'. repeat split; try assumption; try lia. intros Hu. apply H4, HU, Hu.
Qed.

Lemma position_decompose i j c k :
  0 <= i < width g -> 0 <= c < 4 -> Z.of_nat k = (j * width g + i) * 4 + c ->
  Observe.channel k = c /\ Observe.column g k = i /\ Observe.row g k = j.
Proof.
  intros Hi Hc Hk. unfold Observe.channel, Observe.column, Observe.row.
  assert (Hq : Z.of_nat k / 4 = j * width g + i)
    by (symmetry; apply (Z.div_unique _ 4 _ c); lia).
  rewrite Hq. repeat split.
  - symmetry. apply (Z.mod_unique _ 4 (j * width g + i) c); lia.
  - symmetry. apply (Z.mod_unique _ (width g) j i); lia.
  - symmetry. apply (Z.div_unique _ (width g) j i); lia.
Qed.

(** The condition under which a position is still original while column
    [i] is being processed. *)
Lemma texture_inner_step (doneI : list Z) i :
  0 <= i < width g -> ~ In i doneI ->
  forall doneJ j q,
    ~ In j doneJ -> In j (stride2 (height g)) ->
    Observe.retouched p0
      (fun k => Observe.channel k = 3 \/ ~ In (Observe.row g k) (stride2 (height g))
                \/ (~ In (Observe.column g k) doneI
                    /\ (Observe.column g k <> i \/ ~ In (Observe.row g k) doneJ))) q ->
    Observe.retouched p0
      (fun k => Observe.channel k = 3 \/ ~ In (Observe.row g k) (stride2 (height g))
                \/ (~ In (Observe.column g k) doneI
                    /\ (Observe.column g k <> i \/ ~ In (Observe.row g k) (j :: doneJ))))
      (texturePixel g q i j).
Proof.
  intros Hi HiI doneJ j q HjJ Hj [Hlen Hpos].
  apply stride2_spec in Hj as Hj'. destruct Hj' as [Hj0 _].
  assert (Hidx : 0 <= (j * width g + i) * 4) by nia.
  destruct (texturePixel_spec g q i j Hidx) as [Hlen' Hlook]. cbv zeta in Hlook.
  split; [congruence|].
  intros k v Hk. destruct (Hpos k v Hk) as (v1 & Hq & Hb1 & Hn1 & Hu1).
  rewrite Hlook, Hq.
  set (n := Z.to_nat ((j * width g + i) * 4)) in *.
  destruct (Nat.eqb k n || Nat.eqb k (n + 1) || Nat.eqb k (n + 2)) eqn:E.
  - assert (Hc : exists c, 0 <= c < 3 /\ Z.of_nat k = (j * width g + i) * 4 + c).
    { apply orb_true_iff in E as [E|E]; [apply orb_true_iff in E as [E|E]|];
        apply Nat.eqb_eq in E; [exists 0 | exists 1 | exists 2]; subst n; lia. }
    destruct Hc as (c & Hc & Hkc).
    destruct (position_decompose i j c k Hi ltac:(lia) Hkc) as (Hch & Hcol & Hrow).
    assert (Hv1 : v1 = v).
    { apply Hu1. right. right. rewrite Hcol, Hrow. split; [exact HiI | right; exact HjJ]. }
    subst v1.
    pose proof (Forall_lookup_1 _ _ _ _ Hbytes Hk) as Hbyte. cbv beta in Hbyte.
    pose proof (get_unit (noise g) (inject_Z i * (1 # 100)) (inject_Z j * (1 # 100))) as Hn.
    destruct (store_near v
                (PerlinNoise.get (noise g) (inject_Z i * (1 # 100))
                   (inject_Z j * (1 # 100)) * 10)%Q Hbyte ltac:(lra)) as [Hs1 Hs2].
    eexists. split; [reflexivity|].
    split; [exact Hs1|]. split; [exact Hs2|].
    rewrite Hch, Hcol, Hrow. intros [H3|[Hr|[_ [Hne|Hnj]]]].
    + lia.
    + contradiction.
    + congruence.
    + exfalso. apply Hnj. now left.
  - exists v1. repeat split; try assumption; try lia.
    intros [H3|[Hr|[Hd [Hne|Hnj]]]]; apply Hu1.
    + now left.
    + right. now left.
    + right. right. split; [exact Hd | now left].
    + right. right. split; [exact Hd|]. right. intros Hin. apply Hnj. now right.
Qed.

Lemma texture_outer_step (doneI : list Z) i q :
  ~ In i doneI -> In i (stride2 (width g)) ->
  Observe.retouched p0
    (fun k => Observe.channel k = 3 \/ ~ In (Observe.row g k) (stride2 (height g))
              \/ ~ In (Observe.column g k) doneI) q ->
  Observe.retouched p0
    (fun k => Observe.channel k = 3 \/ ~ In (Observe.row g k) (stride2 (height g))
              \/ ~ In (Observe.column g k) (i :: doneI))
    (fold_left (fun pixels j => texturePixel g pixels i j) (stride2 (height g)) q).
Proof.
  intros HiI Hi Hinv.
  apply stride2_spec in Hi as Hi'. destruct Hi' as [Hi0 _].
  destruct (fold_left_done (fun pixels j => texturePixel g pixels i j)
              (fun j => In j (stride2 (height g)))
              (fun doneJ q =>
                 Observe.retouched p0
                   (fun k => Observe.channel k = 3
                             \/ ~ In (Observe.row g k) (stride2 (height g))
                             \/ (~ In (Observe.column g k) doneI
                                 /\ (Observe.column g k <> i
                                     \/ ~ In (Observe.row g k) doneJ))) q)
              (stride2 (height g))
              (texture_inner_step doneI i Hi0 HiI)
              (stride2_NoDup _)
              ltac:(apply Forall_forall; intros x Hx; now apply list_elem_of_In)
              [] q ltac:(intros x []))
    as (doneJ & _ & Hres).
  - eapply retouched_weaken; [|exact Hinv]. cbv beta.
    intros k [H|[H|[H _]]]; auto.
  - eapply retouched_weaken; [|exact Hres]. cbv beta.
    intros k [H|[H|H]]; auto.
    right. right. split.
    + intros Hin. apply H. now right.
    + left. intros E. apply H. now left.
Qed.

Lemma texture_retouched :
  Observe.retouched p0
    (fun k => Observe.channel k = 3 \/ ~ In (Observe.row g k) (stride2 (height g))
              \/ ~ In (Observe.column g k) (stride2 (width g)))
    (drawNoiseTexture g p0).
Proof.
  unfold drawNoiseTexture.
  destruct (fold_left_done
              (fun pixels i =>
                 fold_left (fun pixels j => texturePixel g pixels i j)
                           (stride2 (height g)) pixels)
              (fun i => In i (stride2 (width g)))
              (fun doneI q =>
                 Observe.retouched p0
                   (fun k => Observe.channel k = 3
                             \/ ~ In (Observe.row g k) (stride2 (height g))
                             \/ ~ In (Observe.column g k) doneI) q)
              (stride2 (width g))
              (fun doneI i q H1 H2 H3 => texture_outer_step doneI i q H1 H2 H3)
              (stride2_NoDup _)
              ltac:(apply Forall_forall; intros x Hx; now apply list_elem_of_In)
              [] p0 ltac:(intros x []))
    as (doneI & Hmem & Hres).
  - split; [reflexivity|]. intros k v Hk. exists v.
    pose proof (Forall_lookup_1 _ _ _ _ Hbytes Hk) as Hb. cbv beta in Hb.
    repeat split; try assumption; lia.
  - eapply retouched_weaken; [|exact Hres]. cbv beta.
    intros k [H|[H|H]]; auto.
    right. right. intros Hin. apply H. apply Hmem in Hin as [[]|Hin]. exact Hin.
Qed.

End TextureInvariant.

(** X15: the noise texture overlay keeps the length of the image data
    and keeps every byte a byte; it moves each byte by at most 5, and
    leaves unchanged every alpha channel and every pixel in an odd column or
    an odd row. *)
Theorem noise_texture_subtle (g : VisualGeneratorNode.t) (pixels : list Z)
    (k : nat) (v : Z)
    (Hbytes : Forall (fun b => 0 <= b <= 255) pixels)
    (Hk : pixels !! k = Some v) :
  length (VisualGeneratorNode.drawNoiseTexture g pixels) = length pixels /\
  exists v', VisualGeneratorNode.drawNoiseTexture g pixels !! k = Some v' /\
    0 <= v' <= 255 /\ v - 5 <= v' <= v + 5 /\
    (Observe.channel k = 3 \/ Z.odd (Observe.column g k) = true
     \/ Z.odd (Observe.row g k) = true -> v' = v).
Proof.
  destruct (texture_retouched g pixels Hbytes) as [Hlen Hpos].
  split; [exact Hlen|].
  destruct (Hpos k v Hk) as (v' & H1 & H2 & H3 & H4).
  exists v'. repeat split; try assumption; try lia.
  intros [Hc|[Hc|Hr]]; apply H4.
  - now left.
  - right. right. rewrite stride2_spec. intros [_ He].
    rewrite <- Z.negb_odd, Hc in He. discriminate.
  - right. left. rewrite stride2_spec. intros [_ He].
    rewrite <- Z.negb_odd, Hr in He. discriminate.
Qed.

Lemma noise_texture_subtle_witness :
  exists v',
    VisualGeneratorNode.drawNoiseTexture
      {| VisualGeneratorNode.params := Sample.params;
         VisualGeneratorNode.width := 2; VisualGeneratorNode.height := 2;
         VisualGeneratorNode.colorPalettes := VisualGeneratorNode.initColorPalettes;
         VisualGeneratorNode.rng := SeededRandom.new 42;
         VisualGeneratorNode.noise :=
           {| PerlinNoise.seed := 42; PerlinNoise.permutation := [] |} |}
      [10; 20; 30; 255; 40; 50; 60; 255; 70; 80; 90; 255; 100; 110; 120; 255] !! 1%nat
    = Some v' /\ 20 - 5 <= v' <= 20 + 5.
Proof.
  destruct (noise_texture_subtle
              {| VisualGeneratorNode.params := Sample.params;
                 VisualGeneratorNode.width := 2; VisualGeneratorNode.height := 2;
                 VisualGeneratorNode.colorPalettes := VisualGeneratorNode.initColorPalettes;
                 VisualGeneratorNode.rng := SeededRandom.new 42;
                 VisualGeneratorNode.noise :=
                   {| PerlinNoise.seed := 42; PerlinNoise.permutation := [] |} |}
              [10; 20; 30; 255; 40; 50; 60; 255; 70; 80; 90; 255; 100; 110; 120; 255]
              1%nat 20
              ltac:(repeat constructor; lia) eq_refl)
    as (_ & v' & Hv & _ & Hn & _).
  exists v'. split; assumption.
Defined.

(** ** Words *)
Section Words.
Import Regex Str.

Lemma replaceAll_nonWord (w : JS.str) :
  replaceAll ContentAnalyzer.reNonWord [] w = List.filter isWord w.
Proof.
  unfold replaceAll. induction w as [|c w IH]; [reflexivity|].
  cbn [replaceFrom List.filter].
  unfold matchAt at 1. cbn [ContentAnalyzer.reNonWord run].
  destruct (isWord c); cbn [negb].
  - now rewrite IH.
  - replace (length (c :: w) - length w)%nat with 1%nat by (cbn [length]; lia).
    cbn [app]. exact IH.
Qed.

Lemma splitFrom_elem r (s : JS.str) : forall skip seg piece c,
  In piece (splitFrom r skip seg s) -> In c piece -> In c (seg ++ s).
Proof.
  induction s as [|d s IH]; intros skip seg piece c Hp Hc.
  - cbn in Hp. destruct Hp as [<-|[]]. now rewrite app_nil_r.
  - cbn [splitFrom] in Hp. rewrite in_app_iff. cbn [In].
    destruct skip as [|n].
    + destruct (matchAt r (d :: s)) as [[|n]|].
      * destruct seg as [|e seg].
        -- apply IH with (c := c) in Hp; [|exact Hc].
           rewrite in_app_iff in Hp. cbn [In] in Hp. tauto.
        -- destruct Hp as [<-|Hp]; [now left|].
           apply IH with (c := c) in Hp; [|exact Hc].
           rewrite in_app_iff in Hp. cbn [In] in Hp. tauto.
      * destruct Hp as [<-|Hp]; [now left|].
        apply IH with (c := c) in Hp; [|exact Hc].
        rewrite in_app_iff in Hp. cbn [In] in Hp. tauto.
      * apply IH with (c := c) in Hp; [|exact Hc].
        rewrite !in_app_iff in Hp. cbn [In] in Hp. tauto.
    + apply IH with (c := c) in Hp; [|exact Hc].
      rewrite in_app_iff in Hp. tauto.
Qed.

Lemma split_elem r (s piece : JS.str) c :
  In piece (split r s) -> In c piece -> In c s.
Proof.
  unfold split. intros Hp Hc.
  assert (H : In piece (splitFrom r 0 [] s) -> In c s)
    by (intros H; exact (splitFrom_elem r s 0 [] piece c H Hc)).
  destruct s as [|d s]; [|exact (H Hp)].
  destruct (matchAt r []); [destruct Hp | exact (H Hp)].
Qed.

Lemma toLowerCase_no_capital (s : JS.str) c :
  In c (toLowerCase s) -> inRange 65 90 c = false.
Proof.
  unfold toLowerCase. rewrite in_flat_map. intros (d & _ & Hc).
  unfold lowerUnit in Hc.
  destruct (inRange 65 90 d) eqn:E.
  - destruct Hc as [<-|[]]. unfold inRange in *.
    apply andb_true_iff in E as [E1 E2]. apply Z.leb_le in E1, E2.
    apply andb_false_iff. right. apply Z.leb_gt. lia.
  - destruct (d =? 304); [destruct Hc as [<-|[<-|[]]]; reflexivity|].
    destruct (d =? 8490); [destruct Hc as [<-|[]]; reflexivity|].
    destruct Hc as [<-|[]]. exact E.
Qed.

Lemma getWords_elem (a : ContentAnalyzer.t) (w : JS.str) :
  w ∈ ContentAnalyzer.getWords a ->
  w <> [] /\ Forall (fun c => Observe.lowerWordChar c = true) w.
Proof.
  unfold ContentAnalyzer.getWords. cbv zeta.
  rewrite list_elem_of_filter. intros [Hlen Hw].
  split.
  { intros ->. exact Hlen. }
  rewrite list_elem_of_In, in_map_iff in Hw. destruct Hw as (w0 & <- & Hw0).
  rewrite <- list_elem_of_In, list_elem_of_filter in Hw0. destruct Hw0 as [_ Hw0].
  rewrite list_elem_of_In in Hw0.
  rewrite replaceAll_nonWord. apply Forall_forall. intros c Hc.
  rewrite list_elem_of_In, filter_In in Hc. destruct Hc as [Hc Hword].
  pose proof (split_elem _ _ _ _ Hw0 Hc) as Hlow.
  apply toLowerCase_no_capital in Hlow.
  unfold isWord in Hword. rewrite Hlow in Hword. exact Hword.
Qed.

Lemma total_length_lower (ws : list JS.str) : forall acc,
  Forall (fun w => w <> []) ws ->
  acc + Z.of_nat (length ws)
  <= fold_left (fun sum word => sum + Z.of_nat (length word)) ws acc.
Proof.
  induction ws as [|w ws IH]; intros acc Hne; cbn [fold_left length]; [lia|].
  inversion Hne as [|? ? Hw Hws]; subst.
  specialize (IH (acc + Z.of_nat (length w)) Hws).
  destruct w; [congruence|]. cbn [length] in *. lia.
Qed.

End Words.

(** X16: every word of the word list is non-empty and consists only of
    the lower-case letters [a-z], the digits and the underscore. *)
Theorem words_are_lowercase_word_characters (a : ContentAnalyzer.t) :
  Forall (fun w => w <> [] /\ Forall (fun c => Observe.lowerWordChar c = true) w)
         (ContentAnalyzer.getWords a)
  /\ ContentAnalyzer.words (ContentAnalyzer.analyze a) = ContentAnalyzer.getWords a.
Proof.
  split; [|reflexivity].
  apply Forall_forall. intros w Hw. exact (getWords_elem a w Hw).
Qed.

(** X17: in the metrics of any text, the word count is the length of the
    word list, the reading time is the least number of 200-word minutes
    that covers it, and the average word length is 0 when there are no
    words and at least 1 otherwise. *)
Theorem analyze_word_metrics (a : ContentAnalyzer.t) :
  let m := ContentAnalyzer.analyze a in
  ContentAnalyzer.wordCount m = Z.of_nat (length (ContentAnalyzer.words m)) /\
  200 * (ContentAnalyzer.readingTime m - 1) < ContentAnalyzer.wordCount m
    <= 200 * ContentAnalyzer.readingTime m /\
  ((ContentAnalyzer.wordCount m = 0 /\ (ContentAnalyzer.avgWordLength m == 0)%Q
    /\ ContentAnalyzer.readingTime m = 0)
   \/ (0 < ContentAnalyzer.wordCount m /\ (1 <= ContentAnalyzer.avgWordLength m)%Q)).
Proof.
  intros m. subst m.
  cbn [ContentAnalyzer.analyze ContentAnalyzer.wordCount ContentAnalyzer.words
       ContentAnalyzer.readingTime ContentAnalyzer.avgWordLength].
  set (ws := ContentAnalyzer.getWords a).
  set (wc := Z.of_nat (length ws)).
  split; [reflexivity|].
  assert (Hwc : 0 <= wc) by apply Nat2Z.is_nonneg.
  assert (Hrt : 200 * (Qceiling (inject_Z wc / 200) - 1) < wc
                <= 200 * Qceiling (inject_Z wc / 200)).
  { pose proof (Qle_ceiling (inject_Z wc / 200)) as H1.
    pose proof (Qceiling_lt (inject_Z wc / 200)) as H2.
    set (rt := Qceiling (inject_Z wc / 200)) in *.
    assert (E : (inject_Z wc == 200 * (inject_Z wc / 200))%Q) by field.
    split.
    - rewrite Zlt_Qlt, inject_Z_mult. change (inject_Z 200) with 200%Q. lra.
    - rewrite Zle_Qle, inject_Z_mult. change (inject_Z 200) with 200%Q. lra. }
  split; [exact Hrt|].
  destruct (Z.ltb_spec 0 wc) as [Hpos|Hzero].
  - right. split; [exact Hpos|].
    match goal with
    | |- context [fold_left ?f ws ?z] => set (total := fold_left f ws z)
    end.
    assert (Htotal : wc <= total).
    { pose proof (total_length_lower ws 0) as H. apply H.
      apply Forall_forall. intros w Hw. exact (proj1 (getWords_elem a w Hw)). }
    assert (Havg : (1 <= inject_Z total / inject_Z wc)%Q).
    { apply Qle_shift_div_l.
      - change 0%Q with (inject_Z 0). now rewrite <- Zlt_Qlt.
      - rewrite Qmult_1_l. now rewrite <- Zle_Qle. }
    assert (Hround : 10 <= JS.round (inject_Z total / inject_Z wc * 10)).
    { unfold JS.round. apply floor_ge. change (inject_Z 10) with 10%Q. lra. }
    apply Qle_shift_div_l; [reflexivity|].
    rewrite Zle_Qle in Hround. change (inject_Z 10) with 10%Q in Hround. lra.
  - left. subst wc. clear Hrt Hwc.
    assert (E : ws = [])
      by (destruct ws; [reflexivity | cbn [length] in Hzero; lia]).
    rewrite E. repeat split; reflexivity.
Qed.

(** ** Whitespace of the cleaned text *)
Section Whitespace.
Import Regex Str.

Lemma star_isSpace (s : JS.str) : star isSpace s Some = Some (trimStart s).
Proof.
  induction s as [|c s IH]; [reflexivity|]. cbn [star trimStart].
  destruct (isSpace c); [now rewrite IH | reflexivity].
Qed.

Lemma trimStart_length (s : JS.str) : (length (trimStart s) <= length s)%nat.
Proof.
  induction s as [|c s IH]; cbn [trimStart length]; [lia|].
  destruct (isSpace c); cbn [length]; lia.
Qed.

Lemma trimStart_head (s : JS.str) :
  match trimStart s with d :: _ => isSpace d = false | [] => True end.
Proof.
  induction s as [|c s IH]; cbn [trimStart]; [exact I|].
  destruct (isSpace c) eqn:E; [exact IH | exact E].
Qed.

Lemma matchAt_spaces c (s : JS.str) :
  matchAt (Plus isSpace) (c :: s)
  = if isSpace c then Some (S (length s - length (trimStart s))) else None.
Proof.
  unfold matchAt, Plus. cbn [run].
  destruct (isSpace c); [|reflexivity].
  rewrite star_isSpace. f_equal. pose proof (trimStart_length s). cbn [length]. lia.
Qed.

Lemma replaceFrom_skip r rep : forall (s : JS.str) n,
  (n <= length s)%nat -> replaceFrom r rep n s = replaceFrom r rep 0 (drop n s).
Proof.
  induction s as [|c s IH]; intros [|n] Hn; cbn [length] in Hn; try reflexivity; [lia|].
  cbn [replaceFrom drop]. apply IH. lia.
Qed.

Lemma drop_spaces (s : JS.str) : drop (length s - length (trimStart s)) s = trimStart s.
Proof.
  induction s as [|c s IH]; [reflexivity|]. cbn [trimStart].
  pose proof (trimStart_length s).
  destruct (isSpace c).
  - replace (length (c :: s) - length (trimStart s))%nat
      with (S (length s - length (trimStart s))) by (cbn [length]; lia).
    exact IH.
  - now rewrite Nat.sub_diag.
Qed.

(** Collapsing runs of whitespace, one step at a time. *)
Lemma collapse_step c (s : JS.str) :
  replaceAll (Plus isSpace) [32] (c :: s)
  = if isSpace c then 32 :: replaceAll (Plus isSpace) [32] (trimStart s)
    else c :: replaceAll (Plus isSpace) [32] s.
Proof.
  unfold replaceAll. cbn [replaceFrom]. rewrite matchAt_spaces.
  destruct (isSpace c); [|reflexivity].
  cbn [app]. f_equal.
  rewrite replaceFrom_skip by lia. now rewrite drop_spaces.
Qed.

Lemma collapse_spaced_aux n : forall s : JS.str,
  (length s <= n)%nat ->
  Observe.spaced true (replaceAll (Plus isSpace) [32] s)
  /\ match s with
     | d :: _ => isSpace d = false ->
                 exists r, replaceAll (Plus isSpace) [32] s = d :: r
     | [] => replaceAll (Plus isSpace) [32] s = []
     end.
Proof.
  induction n as [|n IH]; intros [|c s] Hn; cbn [length] in Hn; try lia;
    try (split; [exact I | reflexivity]).
  rewrite collapse_step.
  destruct (isSpace c) eqn:E.
  - pose proof (trimStart_length s).
    destruct (IH (trimStart s) ltac:(lia)) as [Hsp Hhead].
    split; [|intros; discriminate].
    cbn [Observe.spaced]. split; [|exact Hsp].
    intros _. split; [reflexivity|].
    pose proof (trimStart_head s) as Hd.
    destruct (trimStart s) as [|d t].
    + now rewrite Hhead.
    + destruct (Hhead Hd) as [r ->]. exact Hd.
  - destruct (IH s ltac:(lia)) as [Hsp _].
    split; [|intros _; eexists; reflexivity].
    cbn [Observe.spaced]. split; [|exact Hsp]. intros H. congruence.
Qed.

Lemma spaced_trimStart b (s : JS.str) :
  Observe.spaced b s -> Observe.spaced b (trimStart s).
Proof.
  induction s as [|c s IH]; intros H; cbn [trimStart]; [exact I|].
  destruct (isSpace c); [apply IH, H | exact H].
Qed.

Lemma spaced_prefix (l k : JS.str) :
  Observe.spaced true (l ++ k) -> Observe.spaced true l.
Proof.
  induction l as [|c l IH]; intros H; [exact I|].
  cbn [app Observe.spaced] in *. destruct H as [Hc Hl]. split; [|apply IH, Hl].
  intros Hs. destruct (Hc Hs) as [-> Hn]. split; [reflexivity|].
  destruct l; [reflexivity | exact Hn].
Qed.

Lemma spaced_snoc (l : JS.str) c :
  Observe.spaced true (l ++ [c]) -> isSpace c = false ->
  Observe.spaced false (l ++ [c]).
Proof.
  intros H Hc. induction l as [|d l IH].
  - cbn. split; [intros E; congruence | exact I].
  - cbn [app Observe.spaced] in *. destruct H as [Hd Hl]. split; [|apply IH, Hl].
    intros Hs. destruct (Hd Hs) as [-> Hn]. split; [reflexivity|].
    destruct l; exact Hn.
Qed.

Lemma trimEnd_snoc (l : JS.str) c :
  rev (trimStart (rev (l ++ [c])))
  = if isSpace c then rev (trimStart (rev l)) else l ++ [c].
Proof.
  rewrite rev_unit. cbn [trimStart].
  destruct (isSpace c); [reflexivity|].
  cbn [rev]. now rewrite rev_involutive.
Qed.

Lemma spaced_trimEnd (l : JS.str) :
  Observe.spaced true l -> Observe.spaced false (rev (trimStart (rev l))).
Proof.
  induction l as [|c l IH] using rev_ind; intros H; [exact I|].
  rewrite trimEnd_snoc. destruct (isSpace c) eqn:E.
  - apply IH. exact (spaced_prefix _ _ H).
  - now apply spaced_snoc.
Qed.

Lemma trimEnd_head (l : JS.str) d t :
  l = d :: t -> isSpace d = false -> exists t', rev (trimStart (rev l)) = d :: t'.
Proof.
  revert d t. induction l as [|c l IH] using rev_ind; intros d t E Hd; [discriminate|].
  rewrite trimEnd_snoc. destruct (isSpace c) eqn:Ec.
  - destruct l as [|e l].
    + cbn in E. injection E as -> _. congruence.
    + cbn in E. injection E as -> _. eapply IH; [reflexivity | exact Hd].
  - rewrite E. eexists; reflexivity.
Qed.

Lemma trim_spaced (l : JS.str) :
  Observe.spaced true l ->
  Observe.spaced false (trim l)
  /\ match trim l with d :: _ => isSpace d = false | [] => True end.
Proof.
  intros H. unfold trim. split.
  - apply spaced_trimEnd, spaced_trimStart, H.
  - pose proof (trimStart_head l) as Hh.
    destruct (trimStart l) as [|d t] eqn:E; [exact I|].
    destruct (trimEnd_head (d :: t) d t eq_refl Hh) as [t' ->]. exact Hh.
Qed.

End Whitespace.

(** X18: the cleaned text is whitespace-normalised: it does not begin
    with whitespace, and every whitespace code unit in it is a single
    U+0020 followed by a code unit that is not whitespace (so it does not end
    with whitespace and has no run of two spaces). *)
Theorem cleanText_single_spaced (text : JS.str) :
  Observe.spaced false (ContentAnalyzer.cleanText text) /\
  match ContentAnalyzer.cleanText text with
  | d :: _ => Str.isSpace d = false
  | [] => True
  end.
Proof.
  unfold ContentAnalyzer.cleanText. cbv zeta.
  apply trim_spaced.
  change (JS.lit " ") with [32].
  match goal with
  | |- Observe.spaced true (Regex.replaceAll _ _ ?s) =>
      exact (proj1 (collapse_spaced_aux (length s) s (Nat.le_refl _)))
  end.
Qed.
